(** * hued: the HUE SSDP responder daemon (src/hued.cpp)

    A shallow embedding of the daemon: the request parser of
    [Listener::receive], the identity fetch of [Responder::update], the
    response scheduling of [Responder::operator()] and [Responder::respond],
    and the reactor loop that [main] runs.  The parts of the C++ standard
    library and of Boost that the program calls (std::regex, lexical_cast,
    property_tree, format, asio timers) are modelled next to the code that
    uses them, each restricted to what the program needs. *)

From Stdlib Require Import ZArith Lia Ascii.
From stdpp Require Import base strings gmap list.

Local Open Scope Z_scope.

(** ** Characters and strings *)

Definition CR : ascii := "013"%char.
Definition LF : ascii := "010"%char.
Definition CRLF : string := String CR (String LF EmptyString).

(** [std::string::substr(0, n)] and [substr(n)]. *)
Fixpoint take_str (n : nat) (s : string) : string :=
  match n, s with
  | S n', String c s' => String c (take_str n' s')
  | _, _ => EmptyString
  end.

Fixpoint drop_str (n : nat) (s : string) : string :=
  match n, s with
  | S n', String _ s' => drop_str n' s'
  | _, _ => s
  end.

(** [s.find(p) == 0]: [p] occurs at the very start of [s]. *)
Fixpoint starts_with (p s : string) : bool :=
  match p, s with
  | EmptyString, _ => true
  | String a p', String b s' => bool_decide (a = b) && starts_with p' s'
  | String _ _, EmptyString => false
  end.

(** Every character of the string satisfies [f]. *)
Fixpoint all_chars (f : ascii → bool) (s : string) : bool :=
  match s with
  | EmptyString => true
  | String c s' => f c && all_chars f s'
  end.

(** ** std::regex: the fragment the two patterns of [Listener::receive] use

    A pattern is a sequence of items.  Matching is the backtracking,
    leftmost, greedy matching of ECMAScript: [Many a] first tries to take
    one more character and only then hands over to the rest of the
    pattern.  [\s] is the C locale's [isspace]; [^] matches only at the
    first position of the searched range. *)
Module Regex.

Inductive atom : Type :=
| Chr (c : ascii)   (* a literal character *)
| Space             (* \s *)
| NonSpace.         (* \S *)

Inductive item : Type :=
| Bol               (* ^ *)
| One (a : atom)    (* a *)
| Many (a : atom)   (* a+ *)
| Open              (* ( *)
| Close.            (* ) *)

Definition accepts (a : atom) (c : ascii) : bool :=
  match a with
  | Chr d => bool_decide (c = d)
  | Space => Ascii.is_space c
  | NonSpace => negb (Ascii.is_space c)
  end.

(** Sub-matches: the groups still open (innermost first) with the text
    each has consumed so far, and the groups already closed, in order. *)
Record captures : Type := { opened : list string; closed : list string }.

Definition no_captures : captures := {| opened := []; closed := [] |}.

Definition push (c : ascii) (k : captures) : captures :=
  {| opened := (λ g, g +:+ String c EmptyString) <$> opened k;
     closed := closed k |}.

Fixpoint push_str (pre : string) (k : captures) : captures :=
  match pre with
  | EmptyString => k
  | String c pre' => push_str pre' (push c k)
  end.

(** What a successful match reports: the closed groups ([what[1]],
    [what[2]], ...) and the input behind the match ([what[0].second]). *)
Definition found : Type := (list string * string)%type.

Fixpoint many (a : atom) (k : captures → string → option found)
    (caps : captures) (s : string) : option found :=
  match s with
  | String c s' =>
      if accepts a c then
        match many a k (push c caps) s' with
        | Some r => Some r
        | None => k (push c caps) s'
        end
      else None
  | EmptyString => None
  end.

Fixpoint match_here (its : list item) (at_begin : bool)
    (caps : captures) (s : string) : option found :=
  match its with
  | [] => Some (closed caps, s)
  | Bol :: its' => if at_begin then match_here its' at_begin caps s else None
  | One a :: its' =>
      match s with
      | String c s' =>
          if accepts a c then match_here its' false (push c caps) s' else None
      | EmptyString => None
      end
  | Many a :: its' => many a (match_here its' false) caps s
  | Open :: its' =>
      match_here its' at_begin
        {| opened := EmptyString :: opened caps; closed := closed caps |} s
  | Close :: its' =>
      match opened caps with
      | g :: gs =>
          match_here its' at_begin
            {| opened := gs; closed := closed caps ++ [g] |} s
      | [] => None
      end
  end.

Fixpoint search_from (its : list item) (at_begin : bool) (s : string)
    : option found :=
  match match_here its at_begin no_captures s with
  | Some r => Some r
  | None =>
      match s with
      | String _ s' => search_from its false s'
      | EmptyString => None
      end
  end.

(** [std::regex_search(first, last, what, re)] on the range holding [s]. *)
Definition regex_search (its : list item) (s : string) : option found :=
  search_from its true s.

Definition literal (s : string) : list item :=
  (λ c, One (Chr c)) <$> String.list_ascii_of_string s.

End Regex.

(** ** The constants of the program *)

Definition multicast_port : Z := 1900.
Definition t_refresh : Z := 300.
Definition _max_length : nat := 1024.

Definition request_line : string := "M-SEARCH * HTTP/1.1".

(** [const std::regex msearch("^M-SEARCH \\* HTTP/1\\.1")] *)
Definition msearch : list Regex.item := Regex.Bol :: Regex.literal request_line.

(** [const std::regex expr{"(\\S+):\\s(\\S+)"}] *)
Definition expr : list Regex.item :=
  [ Regex.Open; Regex.Many Regex.NonSpace; Regex.Close;
    Regex.One (Regex.Chr ":"); Regex.One Regex.Space;
    Regex.Open; Regex.Many Regex.NonSpace; Regex.Close ].

Definition service_types : gset string :=
  {[ "urn:schemas-upnp-org:device:Basic:1";
     "upnp:rootdevice";
     "ssdpsearch:all";
     "ssdp:all" ]}.

(** ** The header loop of [Listener::receive]

    [for (start = what[0].second; regex_search(start, end, what, expr);
          start = what[2].second) request[what[1]] = what[2];]
    Every match consumes input, so the length of [start] is fuel enough
    (lemma [header_loop_fuel] below). *)
Fixpoint header_loop (fuel : nat) (start : string)
    (request : gmap string string) : gmap string string :=
  match fuel with
  | O => request
  | S fuel' =>
      match Regex.regex_search expr start with
      | Some ([name; value], rest) =>
          header_loop fuel' rest (<[name := value]> request)
      | _ => request
      end
  end.

(** The [request] map as the loop leaves it. *)
Definition headers (start : string) : gmap string string :=
  header_loop (String.length start) start ∅.

(** The matches of the loop, in the order it finds them. *)
Fixpoint header_pairs (fuel : nat) (start : string) : list (string * string) :=
  match fuel with
  | O => []
  | S fuel' =>
      match Regex.regex_search expr start with
      | Some ([name; value], rest) => (name, value) :: header_pairs fuel' rest
      | _ => []
      end
  end.

Definition pairs (start : string) : list (string * string) :=
  header_pairs (String.length start) start.

(** [request[key]] of a [std::unordered_map<std::string, std::string>]:
    an absent key reads as the empty string. *)
Definition at_key (request : gmap string string) (key : string) : string :=
  default EmptyString (request !! key).

(** ** boost::lexical_cast<uint16_t>(std::string)

    Boost.LexicalCast's conversion to an unsigned integral type: an
    optional sign, then decimal digits up to the end of the string, at
    least one, whose value fits the type; with a minus sign the value is
    negated modulo 2^16.  Anything else throws [bad_lexical_cast], here
    [None]. *)
Fixpoint digits_value (acc : Z) (s : string) : option Z :=
  match s with
  | EmptyString => Some acc
  | String c s' =>
      match Ascii.is_nat c with
      | Some d => digits_value (acc * 10 + Z.of_nat d) s'
      | None => None
      end
  end.

Definition lexical_cast_uint16 (s : string) : option Z :=
  match s with
  | EmptyString => None
  | String c s' =>
      let has_minus := bool_decide (c = "-"%char) in
      let digits := if has_minus || bool_decide (c = "+"%char) then s' else s in
      match digits with
      | EmptyString => None
      | _ =>
          match digits_value 0 digits with
          | Some v =>
              if decide (v ≤ 65535)
              then Some (if has_minus then (0 - v) mod 65536 else v)
              else None
          | None => None
          end
      end
  end.

(** ** boost::property_tree::ptree

    A node carries data and an ordered list of keyed children;
    [get_child] follows a path, taking at each level the first child
    with the key. *)
#[warnings="-register-all"]
Inductive ptree : Type :=
| Node (data : string) (children : list (string * ptree)).

Definition data_of (t : ptree) : string := match t with Node d _ => d end.
Definition children_of (t : ptree) : list (string * ptree) :=
  match t with Node _ cs => cs end.

Fixpoint find_child (key : string) (cs : list (string * ptree)) : option ptree :=
  match cs with
  | [] => None
  | (k, t) :: cs' => if bool_decide (k = key) then Some t else find_child key cs'
  end.

Fixpoint get_child (path : list string) (t : ptree) : option ptree :=
  match path with
  | [] => Some t
  | key :: path' =>
      match find_child key (children_of t) with
      | Some c => get_child path' c
      | None => None
      end
  end.

(** ** boost::format with positional directives %1% ... %9% *)
Fixpoint format (tpl : string) (args : list string) : string :=
  match tpl with
  | EmptyString => EmptyString
  | String c tl =>
      match tl with
      | String d (String c' rest) =>
          if bool_decide (c = "%"%char) && bool_decide (c' = "%"%char) then
            match Ascii.is_nat d with
            | Some (S i) => default EmptyString (args !! i) +:+ format rest args
            | _ => String c (format tl args)
            end
          else String c (format tl args)
      | _ => String c (format tl args)
      end
  end.

Definition HUE_RESPONSE : string :=
  "HTTP/1.1 200 OK" +:+ CRLF +:+
  "HOST: 239.255.255.250:1900" +:+ CRLF +:+
  "CACHE-CONTROL: max-age=100" +:+ CRLF +:+
  "EXT:" +:+ CRLF +:+
  "LOCATION: http://%1%:%2%/description.xml" +:+ CRLF +:+
  "SERVER: Linux/3.14.0 UPnP/1.0 IpBridge/1.24.0" +:+ CRLF +:+
  "hue-bridgeid: %3%" +:+ CRLF +:+ "%4%".

Definition HUE_ST1 : string :=
  "ST: upnp:rootdevice" +:+ CRLF +:+
  "USN: uuid:%1%::upnp:rootdevice" +:+ CRLF +:+
  CRLF.

Definition HUE_ST2 : string :=
  "ST: uuid:%1%" +:+ CRLF +:+
  "USN: uuid:%1%" +:+ CRLF +:+
  CRLF.

Definition HUE_ST3 : string :=
  "ST: urn:schemas-upnp-org:device:basic:1" +:+ CRLF +:+
  "USN: uuid:%1%" +:+ CRLF +:+
  CRLF.

(** ** Boost.Asio: error codes, deadline timers, completion handlers *)

Inductive error_code : Type :=
| success
| eof
| operation_aborted
| other_error (value : Z).

Global Instance error_code_eq_dec : EqDecision error_code.
Proof. solve_decision. Defined.

(** [if (e)] on an error code. *)
Definition is_error (e : error_code) : bool :=
  match e with success => false | _ => true end.

Definition address : Type := Z.
Definition endpoint : Type := (address * Z)%type.

(** The completion handlers the program binds with [boost::bind]. *)
Inductive handler : Type :=
| refresh_handler                              (* &Responder::refresh, this *)
| respond_handler (addr : address) (port : Z). (* &Responder::respond, this, addr, port *)

(** A [deadline_timer]: its expiry (ms on the reactor's clock) and the
    handlers of the waits outstanding on it. *)
Record deadline_timer : Type := { expiry : Z; waiters : list handler }.

Inductive exn : Type :=
| system_error (e : error_code)
| xml_parser_error
| ptree_bad_path.

(** ** The bridge, as one fetch sees it

    What the blocking calls of [Responder::update] return on one fetch:
    the error of each transport step ([success] when it went through),
    what the stream extractions read from the status line, the error
    that ended the body loop, and the body as [read_xml] parses it
    ([None] when it throws). *)
Record status_line : Type :=
  { stream_ok : bool;        (* [response_stream] still good after the three reads *)
    http_version : string;
    status_code : Z }.

Record upstream : Type :=
  { elapsed : N;             (* ms the blocking exchange takes *)
    resolve_error : error_code;
    connect_error : error_code;
    write_error : error_code;
    status_read_error : error_code;
    status : status_line;
    headers_read_error : error_code;
    body_end : error_code;
    document : option ptree }.

(** ** The state of the process *)

Record world : Type :=
  { _server : string;
    _service : string;
    _uuid : string;
    _refresh : bool;
    _trefresh : deadline_timer;
    _tresponse : deadline_timer;
    receiving : bool;                       (* an [async_receive_from] is outstanding *)
    now : Z;                                (* the reactor's clock, ms *)
    ready : list (handler * error_code);    (* completed operations not yet dispatched *)
    sent : list (endpoint * string);        (* datagrams given to [send_to], oldest first *)
    fetches : nat }.                        (* fetch attempts started *)

Definition set_uuid (v : string) (w : world) : world :=
  {| _server := _server w; _service := _service w; _uuid := v;
     _refresh := _refresh w; _trefresh := _trefresh w; _tresponse := _tresponse w;
     receiving := receiving w; now := now w; ready := ready w; sent := sent w;
     fetches := fetches w |}.

Definition set_refresh (v : bool) (w : world) : world :=
  {| _server := _server w; _service := _service w; _uuid := _uuid w;
     _refresh := v; _trefresh := _trefresh w; _tresponse := _tresponse w;
     receiving := receiving w; now := now w; ready := ready w; sent := sent w;
     fetches := fetches w |}.

Definition set_trefresh (v : deadline_timer) (w : world) : world :=
  {| _server := _server w; _service := _service w; _uuid := _uuid w;
     _refresh := _refresh w; _trefresh := v; _tresponse := _tresponse w;
     receiving := receiving w; now := now w; ready := ready w; sent := sent w;
     fetches := fetches w |}.

Definition set_tresponse (v : deadline_timer) (w : world) : world :=
  {| _server := _server w; _service := _service w; _uuid := _uuid w;
     _refresh := _refresh w; _trefresh := _trefresh w; _tresponse := v;
     receiving := receiving w; now := now w; ready := ready w; sent := sent w;
     fetches := fetches w |}.

Definition set_receiving (v : bool) (w : world) : world :=
  {| _server := _server w; _service := _service w; _uuid := _uuid w;
     _refresh := _refresh w; _trefresh := _trefresh w; _tresponse := _tresponse w;
     receiving := v; now := now w; ready := ready w; sent := sent w;
     fetches := fetches w |}.

Definition set_now (v : Z) (w : world) : world :=
  {| _server := _server w; _service := _service w; _uuid := _uuid w;
     _refresh := _refresh w; _trefresh := _trefresh w; _tresponse := _tresponse w;
     receiving := receiving w; now := v; ready := ready w; sent := sent w;
     fetches := fetches w |}.

Definition set_ready (v : list (handler * error_code)) (w : world) : world :=
  {| _server := _server w; _service := _service w; _uuid := _uuid w;
     _refresh := _refresh w; _trefresh := _trefresh w; _tresponse := _tresponse w;
     receiving := receiving w; now := now w; ready := v; sent := sent w;
     fetches := fetches w |}.

Definition set_sent (v : list (endpoint * string)) (w : world) : world :=
  {| _server := _server w; _service := _service w; _uuid := _uuid w;
     _refresh := _refresh w; _trefresh := _trefresh w; _tresponse := _tresponse w;
     receiving := receiving w; now := now w; ready := ready w; sent := v;
     fetches := fetches w |}.

Definition set_fetches (v : nat) (w : world) : world :=
  {| _server := _server w; _service := _service w; _uuid := _uuid w;
     _refresh := _refresh w; _trefresh := _trefresh w; _tresponse := _tresponse w;
     receiving := receiving w; now := now w; ready := ready w; sent := sent w;
     fetches := v |}.

(** ** Code that mutates the state and may throw *)

Inductive outcome (A : Type) : Type :=
| returned (a : A) (w : world)
| thrown (e : exn) (w : world).
Arguments returned {A} a w.
Arguments thrown {A} e w.

Definition action (A : Type) : Type := world → outcome A.

Global Instance action_ret : MRet action := λ A a w, returned a w.
Global Instance action_bind : MBind action := λ A B f m w,
  match m w with
  | returned a w' => f a w'
  | thrown e w' => thrown e w'
  end.

Definition throw {A : Type} (e : exn) : action A := λ w, thrown e w.
Definition gets {A : Type} (f : world → A) : action A := λ w, returned (f w) w.
Definition modify (f : world → world) : action unit := λ w, returned tt (f w).
Definition skip : action unit := mret tt.

(** The world an action leaves behind, however it ends. *)
Definition world_of {A : Type} (o : outcome A) : world :=
  match o with returned _ w => w | thrown _ w => w end.

(** A library call that throws [system_error] unless it succeeds. *)
Definition checked (e : error_code) : action unit := λ w,
  if is_error e then thrown (system_error e) w else returned tt w.

Inductive timer_id : Type := trefresh | tresponse.

Definition timer (t : timer_id) (w : world) : deadline_timer :=
  match t with trefresh => _trefresh w | tresponse => _tresponse w end.

Definition set_timer (t : timer_id) (v : deadline_timer) (w : world) : world :=
  match t with trefresh => set_trefresh v w | tresponse => set_tresponse v w end.

(** [t.expires_from_now(d)]: every wait outstanding on [t] is cancelled,
    its handler completes with [operation_aborted]; the expiry is reset. *)
Definition expires_from_now (t : timer_id) (ms : Z) : action unit :=
  modify (λ w,
    set_timer t {| expiry := now w + ms; waiters := [] |}
      (set_ready (ready w ++ ((λ h, (h, operation_aborted)) <$> waiters (timer t w))) w)).

(** [t.async_wait(h)] *)
Definition async_wait (t : timer_id) (h : handler) : action unit :=
  modify (λ w,
    set_timer t {| expiry := expiry (timer t w);
                   waiters := waiters (timer t w) ++ [h] |} w).

(** [_socket.send_to(buffer(msg), endpoint)] *)
Definition send_to (msg : string) (to : endpoint) : action unit :=
  modify (λ w, set_sent (sent w ++ [(to, msg)]) w).

(** ** class Responder *)

(** [RAND_MAX] of the C library the daemon is built against (glibc). *)
Definition RAND_MAX : Z := 2147483647.

Definition uint32 (x : Z) : Z := x mod 2 ^ 32.
Definition uint64 (x : Z) : Z := x mod 2 ^ 64.

(** [uint32_t t_response = static_cast<uint64_t>(mx)*1000*rand()/RAND_MAX;]
    with [r] the value [rand()] returns. *)
Definition t_response (rand_max mx r : Z) : Z :=
  uint32 (uint64 (uint64 (uint64 mx * 1000) * r) / rand_max).

(** The blocking exchange with the bridge starts: one more fetch attempt,
    and the clock moves on by what the exchange takes. *)
Definition exchange (up : upstream) : action unit :=
  modify (λ w, set_now (now w + Z.of_N (elapsed up)) (set_fetches (S (fetches w)) w)).

(** [void Responder::update()] *)
Definition update (up : upstream) : action unit :=
  may ← gets _refresh;
  if (may : bool) then
    modify (set_refresh false);;
    expires_from_now trefresh (t_refresh * 1000);;
    async_wait trefresh refresh_handler;;
    exchange up;;
    checked (resolve_error up);;        (* resolver.resolve(query) *)
    checked (connect_error up);;        (* connect(squery, endpoint_iterator) *)
    checked (write_error up);;          (* write(squery, request) *)
    checked (status_read_error up);;    (* read_until(squery, response, "\r\n") *)
    if negb (stream_ok (status up))
       || negb (bool_decide (take_str 5 (http_version (status up)) = "HTTP/"))
    then skip
    else if negb (bool_decide (status_code (status up) = 200)) then skip
    else
      checked (headers_read_error up);; (* read_until(squery, response, "\r\n\r\n") *)
      (if bool_decide (body_end up = eof) then skip
       else throw (system_error (body_end up)));;
      tree ← match document up with       (* read_xml(xml, tree) *)
             | Some t => mret t
             | None => throw xml_parser_error
             end;
      uuid ← match get_child ["root"; "device"; "UDN"] tree with
             | Some c => mret (data_of c)
             | None => throw ptree_bad_path
             end;
      if starts_with "uuid:" uuid
      then modify (set_uuid (drop_str (String.length "uuid:") uuid))
      else skip
  else skip.

(** [void Responder::operator()(ip::address addr, uint16_t port, uint16_t mx)] *)
Definition operator_call (addr : address) (port mx : Z) (r : Z) (up : upstream)
    : action unit :=
  update up;;
  expires_from_now tresponse (t_response RAND_MAX mx r);;
  async_wait tresponse (respond_handler addr port).

(** [void Responder::refresh(const error_code &e)] *)
Definition refresh (e : error_code) : action unit :=
  if is_error e then skip else modify (set_refresh true).

(** [void Responder::respond(const error_code &e, ip::address addr, uint16_t port)] *)
Definition respond (e : error_code) (addr : address) (port : Z) : action unit :=
  if is_error e then skip
  else
    w ← gets id;
    let endpoint := (addr, port) in
    let st1 := format HUE_ST1 [_uuid w] in
    let st2 := format HUE_ST2 [_uuid w] in
    let st3 := format HUE_ST3 [_uuid w] in
    let msg1 := format HUE_RESPONSE [_server w; _service w; _uuid w; st1] in
    let msg2 := format HUE_RESPONSE [_server w; _service w; _uuid w; st2] in
    let msg3 := format HUE_RESPONSE [_server w; _service w; _uuid w; st3] in
    send_to msg1 endpoint;;
    send_to msg2 endpoint;;
    send_to msg3 endpoint.

(** ** class Listener *)

(** [void Listener::receive(const error_code &error, size_t bytes)], with
    [data] the [bytes] received into [_data], [sender] the
    [_sender_endpoint], and what the call may consume from outside: the
    next value of [rand()] and the bridge's behaviour on a fetch. *)
Definition receive (error : error_code) (data : string) (sender : endpoint)
    (r : Z) (up : upstream) : action unit :=
  if is_error error then skip
  else
    modify (set_receiving true);;    (* _socket.async_receive_from(...) *)
    match Regex.regex_search msearch data with
    | Some (_, start) =>
        let request := headers start in
        if bool_decide (at_key request "ST" ∈ service_types) then
          match lexical_cast_uint16 (at_key request "MX") with
          | Some mx => operator_call (fst sender) (snd sender) mx r up
          | None => skip                (* catch (const bad_lexical_cast &) *)
          end
        else skip
    | None => skip
    end.

(** ** The reactor: [io_service.run()] under [main] *)

Inductive event : Type :=
| Datagram (error : error_code) (data : string) (sender : endpoint)
    (r : Z) (up : upstream)   (* the outstanding receive completes *)
| Idle (ms : N).              (* the loop waits; timers that fall due fire *)

Definition invoke (h : handler) (e : error_code) : action unit :=
  match h with
  | refresh_handler => refresh e
  | respond_handler addr port => respond e addr port
  end.

Fixpoint invoke_all (q : list (handler * error_code)) : action unit :=
  match q with
  | [] => skip
  | (h, e) :: q' => invoke h e;; invoke_all q'
  end.

(** Run the handlers of the operations completed so far. *)
Definition dispatch : action unit :=
  q ← gets ready;
  modify (set_ready []);;
  invoke_all q.

(** The waits on a timer whose expiry has passed complete without error. *)
Definition expired (t : timer_id) (w : world) : world :=
  if decide (expiry (timer t w) ≤ now w) then
    set_timer t {| expiry := expiry (timer t w); waiters := [] |}
      (set_ready (ready w ++ ((λ h, (h, success)) <$> waiters (timer t w))) w)
  else w.

(** Both timers, the one with the earlier expiry first. *)
Definition fire_due (w : world) : world :=
  if bool_decide (expiry (_trefresh w) ≤ expiry (_tresponse w))
  then expired tresponse (expired trefresh w)
  else expired trefresh (expired tresponse w).

Definition expire_due : action unit := modify fire_due.

(** [run()] has work while an operation is outstanding. *)
Definition has_work (w : world) : bool :=
  receiving w
  || negb (bool_decide (waiters (_trefresh w) = []))
  || negb (bool_decide (waiters (_tresponse w) = []))
  || negb (bool_decide (ready w = [])).

Definition EXIT_SUCCESS : Z := 0.
Definition EXIT_FAILURE : Z := 1.

Inductive process : Type :=
| Usage                          (* main rejected its arguments: EXIT_FAILURE *)
| Running (w : world)            (* inside io_service.run() *)
| Exited (code : Z) (w : world). (* main has returned *)

Definition handle (ev : event) : action unit :=
  match ev with
  | Datagram error data sender r up =>
      listening ← gets receiving;
      if (listening : bool) then
        modify (set_receiving false);;
        receive error (take_str _max_length data) sender r up;;
        dispatch
      else skip
  | Idle ms =>
      modify (λ w, set_now (now w + Z.of_N ms) w);;
      expire_due;;
      dispatch
  end.

(** One turn of the loop.  An exception leaves [run()] and is caught in
    [main], which returns [EXIT_FAILURE]; when no operation is outstanding
    [run()] returns and [main] returns 0. *)
Definition step (w : world) (ev : event) : process :=
  match handle ev w with
  | returned _ w' => if has_work w' then Running w' else Exited EXIT_SUCCESS w'
  | thrown _ w' => Exited EXIT_FAILURE w'
  end.

Fixpoint run (p : process) (evs : list event) : process :=
  match evs with
  | [] => p
  | ev :: evs' =>
      match p with
      | Running w => run (step w ev) evs'
      | _ => p
      end
  end.

(** The constructors of [Responder] and [Listener]. *)
Definition start (server service : string) : world :=
  {| _server := server; _service := service; _uuid := EmptyString;
     _refresh := true;
     _trefresh := {| expiry := 0; waiters := [] |};
     _tresponse := {| expiry := 0; waiters := [] |};
     receiving := true; now := 0; ready := []; sent := []; fetches := 0 |}.

(** [param.find_first_of(':')] *)
Fixpoint find_first_of (c : ascii) (s : string) : option nat :=
  match s with
  | EmptyString => None
  | String d s' => if bool_decide (d = c) then Some O else S <$> find_first_of c s'
  end.

(** [int main(int argc, char *argv[])], [args] being [argv[1..]]. *)
Definition main (args : list string) (evs : list event) : process :=
  match args with
  | [param] =>
      match find_first_of ":" param with
      | Some colon =>
          run (Running (start (take_str colon param) (drop_str (S colon) param))) evs
      | None => Usage
      end
  | _ => Usage
  end.

Definition exit_code (p : process) : option Z :=
  match p with
  | Usage => Some EXIT_FAILURE
  | Running _ => None
  | Exited code _ => Some code
  end.

(** ** Vocabulary of the statements *)

(** A non-empty run of non-whitespace characters. *)
Definition token (s : string) : Prop :=
  s ≠ EmptyString ∧ all_chars (λ c, negb (Ascii.is_space c)) s = true.

(** Nothing of a token is left: [s] is empty or begins with whitespace. *)
Definition token_ends (s : string) : Prop :=
  match s with
  | EmptyString => True
  | String c _ => Ascii.is_space c = true
  end.

(** The value of the last pair named [key]. *)
Definition last_value (key : string) (l : list (string * string)) : option string :=
  snd <$> last (filter (λ p, p.1 = key) l).



Definition reply (host service identifier variant : string) : string :=
  "HTTP/1.1 200 OK" +:+ CRLF +:+
  "HOST: 239.255.255.250:1900" +:+ CRLF +:+
  "CACHE-CONTROL: max-age=100" +:+ CRLF +:+
  "EXT:" +:+ CRLF +:+
  "LOCATION: http://" +:+ host +:+ ":" +:+ service +:+ "/description.xml" +:+ CRLF +:+
  "SERVER: Linux/3.14.0 UPnP/1.0 IpBridge/1.24.0" +:+ CRLF +:+
  "hue-bridgeid: " +:+ identifier +:+ CRLF +:+
  variant.

Definition variant1 (identifier : string) : string :=
  "ST: upnp:rootdevice" +:+ CRLF +:+
  "USN: uuid:" +:+ identifier +:+ "::upnp:rootdevice" +:+ CRLF +:+ CRLF.

Definition variant2 (identifier : string) : string :=
  "ST: uuid:" +:+ identifier +:+ CRLF +:+
  "USN: uuid:" +:+ identifier +:+ CRLF +:+ CRLF.

Definition variant3 (identifier : string) : string :=
  "ST: urn:schemas-upnp-org:device:basic:1" +:+ CRLF +:+
  "USN: uuid:" +:+ identifier +:+ CRLF +:+ CRLF.

(** The three datagrams of one reply, as a world would send them. *)
Definition burst (w : world) (to : endpoint) : list (endpoint * string) :=
  [ (to, reply (_server w) (_service w) (_uuid w) (variant1 (_uuid w)));
    (to, reply (_server w) (_service w) (_uuid w) (variant2 (_uuid w)));
    (to, reply (_server w) (_service w) (_uuid w) (variant3 (_uuid w))) ].


(** The transport steps up to and including the read of the status line
    went through. *)
Definition connected (up : upstream) : Prop :=
  resolve_error up = success ∧ connect_error up = success ∧
  write_error up = success ∧ status_read_error up = success.

(** The two tests [update] makes on the status line. *)
Definition status_accepted (up : upstream) : Prop :=
  stream_ok (status up) = true ∧
  take_str 5 (http_version (status up)) = "HTTP/" ∧
  status_code (status up) = 200.

(** A fetch that gets as far as the UDN field and finds [udn] there. *)
Definition delivers (up : upstream) (udn : string) : Prop :=
  connected up ∧ status_accepted up ∧
  headers_read_error up = success ∧ body_end up = eof ∧
  ∃ tree node, document up = Some tree ∧
    get_child ["root"; "device"; "UDN"] tree = Some node ∧ data_of node = udn.

(** The faults of a fetch, each on an exchange that went well up to it. *)
Inductive fault : Type :=
| connection_failure     (* resolve, connect or write fails *)
| status_rejected        (* unreadable status line, not HTTP/, or not 200 *)
| premature_end          (* the stream ends or breaks other than by a clean EOF *)
| malformed_body.        (* not XML, or no root.device.UDN *)

Definition suffers (up : upstream) (f : fault) : Prop :=
  match f with
  | connection_failure =>
      resolve_error up ≠ success
      ∨ (resolve_error up = success ∧ connect_error up ≠ success)
      ∨ (resolve_error up = success ∧ connect_error up = success
         ∧ write_error up ≠ success)
  | status_rejected => connected up ∧ ¬ status_accepted up
  | premature_end =>
      (resolve_error up = success ∧ connect_error up = success
       ∧ write_error up = success ∧ status_read_error up ≠ success)
      ∨ (connected up ∧ status_accepted up ∧ headers_read_error up ≠ success)
      ∨ (connected up ∧ status_accepted up ∧ headers_read_error up = success
         ∧ body_end up ≠ eof)
  | malformed_body =>
      connected up ∧ status_accepted up ∧ headers_read_error up = success
      ∧ body_end up = eof
      ∧ (document up = None
         ∨ ∃ tree, document up = Some tree
             ∧ get_child ["root"; "device"; "UDN"] tree = None)
  end.

(** The world as [update] has it when the exchange with the bridge is
    under way: the window is open, the attempt counted, the identifier
    not yet touched. *)
Definition fetching (up : upstream) (w : world) : world :=
  {| _server := _server w; _service := _service w; _uuid := _uuid w;
     _refresh := false;
     _trefresh := {| expiry := now w + t_refresh * 1000;
                     waiters := [refresh_handler] |};
     _tresponse := _tresponse w;
     receiving := receiving w;
     now := now w + Z.of_N (elapsed up);
     ready := ready w ++ ((λ h, (h, operation_aborted)) <$> waiters (_trefresh w));
     sent := sent w;
     fetches := S (fetches w) |}.

(** The world once a response to [to] is scheduled [delay] ms ahead:
    [_tresponse.expires_from_now] and [_tresponse.async_wait] of
    [operator()]. *)
Definition scheduled (to : endpoint) (delay : Z) (w : world) : world :=
  set_tresponse
    {| expiry := now w + delay; waiters := [respond_handler to.1 to.2] |}
    (set_ready
       (ready w ++ ((λ h, (h, operation_aborted)) <$> waiters (_tresponse w))) w).

(** The datagram is one the listener accepts, with [mx] its MX value. *)
Definition accepted (data : string) (mx : Z) : Prop :=
  ∃ start, data = request_line +:+ start
    ∧ at_key (headers start) "ST" ∈ service_types
    ∧ lexical_cast_uint16 (at_key (headers start) "MX") = Some mx.

Definition is_respond (h : handler) : Prop :=
  match h with respond_handler _ _ => True | refresh_handler => False end.

(** Between two turns of the loop, inside a refresh window that ends
    at [e]: the flag is down and [refresh] waits on the window timer. *)
Definition window (w : world) (e : Z) : Prop :=
  _refresh w = false
  ∧ _trefresh w = {| expiry := e; waiters := [refresh_handler] |}
  ∧ ready w = []
  ∧ Forall is_respond (waiters (_tresponse w)).



(** The time a trace lets pass while the loop is idle. *)
Fixpoint duration (evs : list event) : Z :=
  match evs with
  | [] => 0
  | Idle ms :: evs' => Z.of_N ms + duration evs'
  | Datagram _ _ _ _ _ :: evs' => duration evs'
  end.

Definition world_at (p : process) : option world :=
  match p with
  | Usage => None
  | Running w => Some w
  | Exited _ w => Some w
  end.

(** ** A bridge, two clients and their queries, for the examples *)
Module Scenario.

Definition description (udn : string) : ptree :=
  Node EmptyString
    [("root", Node EmptyString
       [("specVersion", Node EmptyString
          [("major", Node "1" []); ("minor", Node "0" [])]);
        ("URLBase", Node "http://bridge.local:80/" []);
        ("device", Node EmptyString
          [("deviceType", Node "urn:schemas-upnp-org:device:Basic:1" []);
           ("friendlyName", Node "hue" []);
           ("UDN", Node udn [])])])].

Definition ok_status : status_line :=
  {| stream_ok := true; http_version := "HTTP/1.0"; status_code := 200 |}.

(** A bridge that answers 200 with a description whose UDN is [udn]. *)
Definition bridge (udn : string) : upstream :=
  {| elapsed := 20;
     resolve_error := success; connect_error := success;
     write_error := success; status_read_error := success;
     status := ok_status;
     headers_read_error := success; body_end := eof;
     document := Some (description udn) |}.

(** A bridge that refuses the connection (ECONNREFUSED). *)
Definition unreachable : upstream :=
  {| elapsed := 3;
     resolve_error := success; connect_error := other_error 111;
     write_error := success; status_read_error := success;
     status := ok_status;
     headers_read_error := success; body_end := eof;
     document := None |}.

(** A bridge that answers 404. *)
Definition not_found : upstream :=
  {| elapsed := 20;
     resolve_error := success; connect_error := success;
     write_error := success; status_read_error := success;
     status := {| stream_ok := true; http_version := "HTTP/1.0"; status_code := 404 |};
     headers_read_error := success; body_end := eof;
     document := None |}.

Definition ipv4 (a b c d : Z) : address :=
  Z.lor (Z.shiftl a 24) (Z.lor (Z.shiftl b 16) (Z.lor (Z.shiftl c 8) d)).

Definition alice : endpoint := (ipv4 10 0 0 5, 51000).
Definition bob : endpoint := (ipv4 10 0 0 6, 52000).

Definition query (st mx : string) : string :=
  request_line +:+ CRLF +:+
  "HOST: 239.255.255.250:1900" +:+ CRLF +:+
  "ST: " +:+ st +:+ CRLF +:+
  "MX: " +:+ mx +:+ CRLF +:+ CRLF.

Definition daemon : world := start "bridge.local" "80".

End Scenario.

(** ** Vocabulary of the further properties *)

(** A header line as a client writes it, and a block of such lines. *)
Definition render_line (p : string * string) : string :=
  p.1 +:+ ": " +:+ p.2 +:+ CRLF.

Fixpoint render (l : list (string * string)) : string :=
  match l with
  | [] => EmptyString
  | p :: l' => render_line p +:+ render l'
  end.

(** A timer that has fallen due: its waits complete with success. *)
Definition fired (t : timer_id) (w : world) : world :=
  set_timer t {| expiry := expiry (timer t w); waiters := [] |}
    (set_ready (ready w ++ ((λ h, (h, success)) <$> waiters (timer t w))) w).

(** What a queue of completed operations does when its handlers run:
    the flag it leaves and the datagrams it sends. *)
Fixpoint flag_after (q : list (handler * error_code)) (flag : bool) : bool :=
  match q with
  | [] => flag
  | (refresh_handler, success) :: q' => flag_after q' true
  | _ :: q' => flag_after q' flag
  end.

Fixpoint output (w : world) (q : list (handler * error_code))
    : list (endpoint * string) :=
  match q with
  | [] => []
  | (respond_handler addr port, success) :: q' => burst w (addr, port) ++ output w q'
  | _ :: q' => output w q'
  end.

(** The world after the handlers of its ready queue have run. *)
Definition dispatched (w : world) : world :=
  set_sent (sent w ++ output w (ready w))
    (set_refresh (flag_after (ready w) (_refresh w)) (set_ready [] w)).

(** The three datagrams of a reply with a given identifier. *)
Definition burst_of (host service : string) (p : string * endpoint)
    : list (endpoint * string) :=
  [ (p.2, reply host service p.1 (variant1 p.1));
    (p.2, reply host service p.1 (variant2 p.1));
    (p.2, reply host service p.1 (variant3 p.1)) ].

(** What holds of the daemon between two turns of the loop. *)
Definition settled (host service : string) (w : world) : Prop :=
  _server w = host ∧ _service w = service
  ∧ ready w = []
  ∧ ((_refresh w = true ∧ waiters (_trefresh w) = [])
     ∨ (_refresh w = false ∧ waiters (_trefresh w) = [refresh_handler]))
  ∧ (waiters (_tresponse w) = []
     ∨ ∃ addr port, waiters (_tresponse w) = [respond_handler addr port])
  ∧ 300000 * Z.of_nat (fetches w) ≤ expiry (_trefresh w) ≤ now w + 300000
  ∧ (_refresh w = true → expiry (_trefresh w) ≤ now w)
  ∧ ∃ l, sent w = concat (burst_of host service <$> l).

(** A receive that completes with an error. *)
Definition failed_receive (ev : event) : Prop :=
  match ev with
  | Datagram error _ _ _ _ => is_error error = true
  | Idle _ => False
  end.

(** A fetch against this bridge could throw. *)
Definition may_throw (ev : event) : Prop :=
  match ev with
  | Datagram _ _ _ _ up => ∃ f, f ≠ status_rejected ∧ suffers up f
  | Idle _ => False
  end.

(** * Properties *)

(** ** Strings *)

#[local] Arguments String.append !_ _ / : simpl nomatch.

Lemma str_app_nil_r (s : string) : s +:+ EmptyString = s.
Proof. induction s as [|c s IH]; simpl; [done|]. by rewrite IH. Qed.

Lemma str_app_assoc (a b c : string) : (a +:+ b) +:+ c = a +:+ b +:+ c.
Proof. induction a as [|x a IH]; simpl; [done|]. by rewrite IH. Qed.

Lemma str_length_app (a b : string) :
  String.length (a +:+ b) = (String.length a + String.length b)%nat.
Proof. induction a as [|x a IH]; simpl; [done|]. by rewrite IH. Qed.

Lemma starts_with_app (p rest : string) : starts_with p (p +:+ rest) = true.
Proof.
  induction p as [|c p IH]; simpl; [done|].
  rewrite bool_decide_eq_true_2 by done. exact IH.
Qed.

Lemma starts_with_split (p s : string) :
  starts_with p s = true → s = p +:+ drop_str (String.length p) s.
Proof.
  revert s. induction p as [|c p IH]; intros [|d s]; simpl; try done.
  intros [Hc Hp]%andb_prop. apply bool_decide_eq_true_1 in Hc as ->.
  f_equal. by apply IH.
Qed.

Lemma drop_str_app (p rest : string) : drop_str (String.length p) (p +:+ rest) = rest.
Proof. induction p as [|c p IH]; simpl; [by destruct rest|]. exact IH. Qed.

Lemma all_chars_app (f : ascii → bool) (a b : string) :
  all_chars f (a +:+ b) = all_chars f a && all_chars f b.
Proof. induction a as [|c a IH]; simpl; [done|]. by rewrite IH, andb_assoc. Qed.

(** ** The regular expressions *)

Lemma opened_push_str (pre : string) (k : Regex.captures) :
  Regex.opened (Regex.push_str pre k) = (λ g, g +:+ pre) <$> Regex.opened k.
Proof.
  revert k. induction pre as [|c pre IH]; intros k; simpl.
  - induction (Regex.opened k) as [|g gs IHg]; [done|].
    rewrite fmap_cons, <- IHg. by rewrite str_app_nil_r.
  - rewrite IH. simpl. rewrite <- list_fmap_compose.
    apply list_fmap_ext. intros _ g _. simpl. by rewrite str_app_assoc.
Qed.

Lemma closed_push_str (pre : string) (k : Regex.captures) :
  Regex.closed (Regex.push_str pre k) = Regex.closed k.
Proof. revert k. induction pre as [|c pre IH]; intros k; simpl; [done|]. by rewrite IH. Qed.

(** What [a+] took is a non-empty run of characters [a] accepts. *)
Lemma many_sound a k caps s r :
  Regex.many a k caps s = Some r →
  ∃ pre s', s = pre +:+ s' ∧ pre ≠ EmptyString
    ∧ all_chars (Regex.accepts a) pre = true
    ∧ k (Regex.push_str pre caps) s' = Some r.
Proof.
  revert caps. induction s as [|c s IH]; intros caps; simpl; [done|].
  destruct (Regex.accepts a c) eqn:Hc; [|done].
  destruct (Regex.many a k (Regex.push c caps) s) as [r'|] eqn:Hm.
  - intros [= ->]. destruct (IH _ Hm) as (pre & s' & -> & _ & Hall & Hk).
    exists (String c pre), s'. simpl. by rewrite Hc, Hall.
  - intros Hk. exists (String c EmptyString), s. simpl. by rewrite Hc.
Qed.

(** When what follows [a+] cannot fail, [a+] takes every character it
    can. *)
Lemma many_longest a k caps s r :
  (∀ caps' s', Regex.opened caps' ≠ [] → k caps' s' ≠ None) →
  Regex.opened caps ≠ [] →
  Regex.many a k caps s = Some r →
  ∃ pre s', s = pre +:+ s' ∧ pre ≠ EmptyString
    ∧ all_chars (Regex.accepts a) pre = true
    ∧ k (Regex.push_str pre caps) s' = Some r
    ∧ match s' with
      | EmptyString => True
      | String c _ => Regex.accepts a c = false
      end.
Proof.
  intros Hk. revert caps. induction s as [|c s IH]; intros caps Hcaps; simpl; [done|].
  destruct (Regex.accepts a c) eqn:Hc; [|done].
  assert (Regex.opened (Regex.push c caps) ≠ []) as Hpush.
  { simpl. by destruct (Regex.opened caps). }
  destruct (Regex.many a k (Regex.push c caps) s) as [r'|] eqn:Hm.
  - intros [= ->]. destruct (IH _ Hpush Hm) as (pre & s' & -> & _ & Hall & Hr & Hend).
    exists (String c pre), s'. simpl. by rewrite Hc, Hall.
  - intros Hr. exists (String c EmptyString), s. simpl. rewrite Hc.
    repeat split; try done.
    destruct s as [|d s]; [done|]. simpl in Hm.
    destruct (Regex.accepts a d); [|done].
    destruct (Regex.many a k (Regex.push d (Regex.push c caps)) s); [done|].
    exfalso. eapply Hk; [|exact Hm]. simpl.
    by destruct (Regex.opened caps).
Qed.

(** A match of [expr] where it starts: name, colon, one whitespace
    character, value. *)
Lemma expr_match_sound b s gs rest :
  Regex.match_here expr b Regex.no_captures s = Some (gs, rest) →
  ∃ name sp value,
    gs = [name; value]
    ∧ s = name +:+ String ":" (String sp (value +:+ rest))
    ∧ token name ∧ Ascii.is_space sp = true ∧ token value ∧ token_ends rest.
Proof.
  unfold expr. simpl. intros H.
  apply many_sound in H as (name & s1 & -> & Hne & Hname & H).
  simpl in H. rewrite opened_push_str, closed_push_str in H. simpl in H.
  destruct s1 as [|c s1]; [done|].
  destruct (bool_decide (c = ":"%char)) eqn:Hc; [|done].
  apply bool_decide_eq_true_1 in Hc as ->.
  destruct s1 as [|sp s1]; [done|].
  destruct (Ascii.is_space sp) eqn:Hsp; [|done].
  simpl in H.
  apply many_longest in H as (value & s2 & -> & Hnv & Hvalue & H & Hend);
    [|intros caps' s' Hopen; simpl; by destruct (Regex.opened caps')|done].
  simpl in H. rewrite opened_push_str, closed_push_str in H. simpl in H.
  injection H as <- <-.
  exists name, sp, value. repeat split; try done.
  destruct s2 as [|d s2]; [done|]. simpl in *. by apply negb_false_iff.
Qed.

Lemma expr_search_sound b s gs rest :
  Regex.search_from expr b s = Some (gs, rest) →
  ∃ skipped name sp value,
    gs = [name; value]
    ∧ s = skipped +:+ name +:+ String ":" (String sp (value +:+ rest))
    ∧ token name ∧ Ascii.is_space sp = true ∧ token value ∧ token_ends rest.
Proof.
  revert b. induction s as [|c s IH]; intros b; [done|].
  cbn [Regex.search_from].
  destruct (Regex.match_here expr b Regex.no_captures (String c s))
    as [[gs' rest']|] eqn:Hm.
  - intros [= -> ->]. apply expr_match_sound in Hm as (n & sp & v & ? & ? & ?).
    by exists EmptyString, n, sp, v.
  - intros H. apply IH in H as (sk & n & sp & v & ? & -> & ?).
    by exists (String c sk), n, sp, v.
Qed.

(** Every match of [expr] leaves less input than it was given. *)
Lemma expr_search_consumes s gs rest :
  Regex.regex_search expr s = Some (gs, rest) →
  (String.length rest < String.length s)%nat.
Proof.
  intros H. apply expr_search_sound in H as (sk & n & sp & v & _ & -> & _).
  rewrite !str_length_app. simpl. rewrite str_length_app. lia.
Qed.

Lemma push_no_open c (k : Regex.captures) :
  Regex.opened k = [] → Regex.push c k = k.
Proof. destruct k as [o cl]. simpl. by intros ->. Qed.

Lemma match_literal lit b caps s :
  Regex.opened caps = [] →
  Regex.match_here (Regex.literal lit) b caps s =
    if starts_with lit s
    then Some (Regex.closed caps, drop_str (String.length lit) s)
    else None.
Proof.
  intros Hcaps. revert b s.
  induction lit as [|c lit IH]; intros b s; [by destruct s|].
  change (Regex.literal (String c lit))
    with (Regex.One (Regex.Chr c) :: Regex.literal lit).
  destruct s as [|d s]; [done|]. simpl.
  rewrite push_no_open by done.
  destruct (decide (d = c)) as [->|Hne].
  - rewrite !bool_decide_eq_true_2 by done. apply IH.
  - rewrite (bool_decide_eq_false_2 (d = c)) by done.
    by rewrite (bool_decide_eq_false_2 (c = d)).
Qed.

Lemma msearch_not_later s : Regex.search_from msearch false s = None.
Proof. induction s as [|c s IH]; [done|]. exact IH. Qed.

(** [regex_search(_data, _data+bytes, what, msearch)] succeeds exactly on
    the datagrams that begin with the request line, and [what[0].second]
    is then the input behind it. *)
Lemma msearch_spec s :
  Regex.regex_search msearch s =
    if starts_with request_line s
    then Some ([], drop_str (String.length request_line) s)
    else None.
Proof.
  unfold Regex.regex_search, msearch.
  assert (Regex.match_here (Regex.Bol :: Regex.literal request_line) true
            Regex.no_captures s
          = Regex.match_here (Regex.literal request_line) true
              Regex.no_captures s) as Hbol by done.
  destruct s as [|c s]; [done|].
  cbn [Regex.search_from]. rewrite Hbol, match_literal by done.
  destruct (starts_with request_line (String c s)); [done|].
  apply msearch_not_later.
Qed.

Lemma msearch_accepts start :
  Regex.regex_search msearch (request_line +:+ start) = Some ([], start).
Proof. by rewrite msearch_spec, starts_with_app, drop_str_app. Qed.

Lemma msearch_rejects s :
  starts_with request_line s = false → Regex.regex_search msearch s = None.
Proof. intros H. by rewrite msearch_spec, H. Qed.

(** ** The header loop *)

Lemma header_pairs_fuel n m s :
  (String.length s ≤ n)%nat → (String.length s ≤ m)%nat →
  header_pairs n s = header_pairs m s.
Proof.
  revert m s. induction n as [|n IH]; intros m s Hn Hm.
  - destruct s; [|simpl in Hn; lia]. by destruct m.
  - destruct m as [|m].
    + destruct s; [done|simpl in Hm; lia].
    + simpl. destruct (Regex.regex_search expr s) as [[gs rest]|] eqn:Hs; [|done].
      apply expr_search_consumes in Hs.
      destruct gs as [|name [|value [|? ?]]]; try done.
      f_equal. apply IH; lia.
Qed.

Lemma header_loop_pairs n s (request : gmap string string) :
  header_loop n s request =
    foldl (λ m p, <[p.1 := p.2]> m) request (header_pairs n s).
Proof.
  revert s request. induction n as [|n IH]; intros s request; [done|]. simpl.
  destruct (Regex.regex_search expr s) as [[gs rest]|]; [|done].
  destruct gs as [|name [|value [|? ?]]]; try done.
  all: simpl; apply IH.
Qed.


Lemma headers_pairs s :
  headers s = foldl (λ m p, <[p.1 := p.2]> m) ∅ (pairs s).
Proof. apply header_loop_pairs. Qed.



(** [request[name] = value] in a loop: the last assignment stands. *)
Lemma foldl_insert_lookup (l : list (string * string)) (m : gmap string string) key :
  foldl (λ m p, <[p.1 := p.2]> m) m l !! key =
    match last_value key l with
    | Some v => Some v
    | None => m !! key
    end.
Proof.
  revert m. induction l as [|[name value] l IH]; intros m; [done|].
  simpl. rewrite IH. unfold last_value. rewrite filter_cons. simpl.
  destruct (decide (name = key)) as [->|Hne].
  - rewrite last_cons.
    destruct (last (filter (λ p, p.1 = key) l)) as [[? v]|]; simpl; [done|].
    apply lookup_insert_eq.
  - destruct (last (filter (λ p, p.1 = key) l)) as [[? v]|]; simpl; [done|].
    by apply lookup_insert_ne.
Qed.

Lemma headers_last_wins s key :
  headers s !! key = last_value key (pairs s).
Proof.
  rewrite headers_pairs, foldl_insert_lookup, lookup_empty.
  by destruct (last_value key (pairs s)).
Qed.


(** The loop on some inputs: a name may hold colons, a colon must be
    followed by exactly one whitespace character, and a value that ends
    in a colon is not taken for a name. *)
Example header_pairs_samples :
  pairs ("a:b: c" +:+ CRLF +:+ "ST:" +:+ CRLF +:+ "MX: 3" +:+ CRLF +:+
         "X:  y" +:+ CRLF +:+ "K:" +:+ String "009" "v w: z")
    = [("a:b", "c"); ("MX", "3"); ("K", "v"); ("w", "z")]
  ∧ pairs "FOO: ST: ssdp:all" = [("FOO", "ST:")]
  ∧ pairs ("ST: a" +:+ CRLF +:+ "ST: b") = [("ST", "a"); ("ST", "b")]
  ∧ at_key (headers ("ST: a" +:+ CRLF +:+ "ST: b")) "ST" = "b".
Proof. vm_compute. by repeat split. Qed.

Example request_line_samples :
  Regex.regex_search msearch "m-search * HTTP/1.1" = None
  ∧ Regex.regex_search msearch " M-SEARCH * HTTP/1.1" = None
  ∧ Regex.regex_search msearch "M-SEARCH * HTTP/1.0" = None
  ∧ Regex.regex_search msearch "M-SEARCH * HTTP/1.1ST: ssdp:all"
    = Some ([], "ST: ssdp:all").
Proof. vm_compute. by repeat split. Qed.

(** ** [lexical_cast<uint16_t>] *)

Example lexical_cast_samples :
  lexical_cast_uint16 "0" = Some 0
  ∧ lexical_cast_uint16 "65535" = Some 65535
  ∧ lexical_cast_uint16 "007" = Some 7
  ∧ lexical_cast_uint16 "+7" = Some 7
  ∧ lexical_cast_uint16 "-1" = Some 65535
  ∧ lexical_cast_uint16 "65536" = None
  ∧ lexical_cast_uint16 EmptyString = None
  ∧ lexical_cast_uint16 "-" = None
  ∧ lexical_cast_uint16 "2s" = None
  ∧ lexical_cast_uint16 "0x10" = None.
Proof. vm_compute. by repeat split. Qed.



(** ** Actions *)

#[local] Arguments starts_with : simpl never.
#[local] Arguments take_str : simpl never.
#[local] Arguments drop_str : simpl never.
#[local] Arguments get_child : simpl never.
#[local] Arguments format : simpl never.
#[local] Arguments Z.mul : simpl never.
#[local] Arguments Z.add : simpl never.

(** Unfold the plumbing of [action], leaving the program's own steps. *)
Ltac exec :=
  cbv [mbind action_bind mret action_ret skip modify gets throw checked
       expires_from_now async_wait send_to exchange id timer set_timer];
  simpl.

(** Split on the test an outcome is waiting for. *)
Ltac branch :=
  match goal with
  | |- context [(if ?b then _ else _) _] => destruct b eqn:?
  | |- context [(match ?x with Some _ => _ | None => _ end) _] => destruct x eqn:?
  | |- context [match (if ?b then _ else _) with returned _ _ => _ | thrown _ _ => _ end] =>
      destruct b eqn:?
  | |- context [world_of (if ?b then _ else _)] => destruct b eqn:?
  end; simpl.

(** Unfold the state updates down to the record. *)
Ltac worlds :=
  unfold has_work, set_uuid, set_refresh, set_trefresh, set_tresponse,
    set_receiving, set_now, set_ready, set_sent, set_fetches; simpl.

Lemma bind_returned {A B} (m : action A) (f : A → action B) w a w' :
  m w = returned a w' → (m ≫= f) w = f a w'.
Proof. unfold mbind, action_bind. by intros ->. Qed.

Lemma bind_thrown {A B} (m : action A) (f : A → action B) w e w' :
  m w = thrown e w' → (m ≫= f) w = thrown e w'.
Proof. unfold mbind, action_bind. by intros ->. Qed.

(** ** [Responder::update] *)

(** Inside the window [update] returns at once. *)
Lemma update_skips up w : _refresh w = false → update up w = returned tt w.
Proof. intros H. unfold update. exec. by rewrite H. Qed.

(** Outside it, whatever the bridge does, [update] leaves the world of
    [fetching] with at most the identifier changed. *)
Lemma update_fetches up w :
  _refresh w = true →
  ∃ identifier, world_of (update up w) = set_uuid identifier (fetching up w).
Proof.
  intros H. unfold update. exec. rewrite H.
  destruct w; simpl in *.
  repeat branch; eexists; reflexivity.
Qed.

Lemma is_error_true e : e ≠ success → is_error e = true.
Proof. by destruct e. Qed.

Lemma status_test up :
  status_accepted up ↔
  negb (stream_ok (status up))
    || negb (bool_decide (take_str 5 (http_version (status up)) = "HTTP/")) = false
  ∧ negb (bool_decide (status_code (status up) = 200)) = false.
Proof.
  unfold status_accepted.
  rewrite orb_false_iff, !negb_false_iff, !bool_decide_eq_true. tauto.
Qed.

Ltac open_upstream up :=
  destruct up as [el re ce we sre st hre be doc];
  unfold suffers, delivers, connected in *; simpl in *.

Ltac accept_status H :=
  let H1 := fresh in let H2 := fresh in
  apply status_test in H as [H1 H2]; simpl in H1, H2; rewrite H1, H2; simpl.

(** A status line that fails either test ends the fetch quietly. *)
Lemma update_status_rejected up w :
  _refresh w = true → suffers up status_rejected →
  update up w = returned tt (fetching up w).
Proof.
  intros Hw [Hc Hst]. rewrite status_test in Hst.
  unfold update. exec. rewrite Hw. simpl.
  open_upstream up. destruct Hc as (-> & -> & -> & ->). simpl.
  destruct (negb (stream_ok st)
            || negb (bool_decide (take_str 5 (http_version st) = "HTTP/"))) eqn:H1;
    [done|].
  destruct (negb (bool_decide (status_code st = 200))) eqn:H2; [done|].
  by destruct Hst.
Qed.

(** Every other fault leaves [update] as an exception. *)
Lemma update_throws up w f :
  _refresh w = true → suffers up f → f ≠ status_rejected →
  ∃ e, update up w = thrown e (fetching up w).
Proof.
  intros Hw Hf Hne. unfold update. exec. rewrite Hw. simpl.
  destruct f; [| done | |].
  - open_upstream up.
    destruct Hf as [H|[(-> & H)|(-> & -> & H)]];
      simpl; rewrite (is_error_true _ H); by eexists.
  - open_upstream up.
    destruct Hf as [(-> & -> & -> & H)|[(Hc & Hst & H)|(Hc & Hst & -> & H)]].
    + simpl. rewrite (is_error_true _ H). by eexists.
    + destruct Hc as (-> & -> & -> & ->). simpl.
      accept_status Hst.
      rewrite (is_error_true _ H). by eexists.
    + destruct Hc as (-> & -> & -> & ->). simpl.
      accept_status Hst.
      rewrite bool_decide_eq_false_2 by done. by eexists.
  - open_upstream up.
    destruct Hf as (Hc & Hst & -> & -> & H).
    destruct Hc as (-> & -> & -> & ->). simpl.
    accept_status Hst.
    destruct H as [->|(tree & -> & ->)]; by eexists.
Qed.

(** A fetch that reaches the UDN stores what follows the prefix [uuid:],
    and stores nothing when the prefix is not there. *)
Lemma update_delivers up w udn :
  _refresh w = true → delivers up udn →
  update up w =
    returned tt (if starts_with "uuid:" udn
                 then set_uuid (drop_str 5 udn) (fetching up w)
                 else fetching up w).
Proof.
  intros Hw Hd. unfold update. exec. rewrite Hw. simpl.
  open_upstream up.
  destruct Hd as (Hc & Hst & -> & -> & tree & node & -> & -> & <-).
  destruct Hc as (-> & -> & -> & ->). simpl.
  accept_status Hst.
  by destruct (starts_with "uuid:" (data_of node)).
Qed.

Lemma fetching_uuid up w : _uuid (fetching up w) = _uuid w.
Proof. done. Qed.

(** ** The completion handlers *)

(** The format strings, filled in, are the documented layout. *)
Lemma format_HUE_RESPONSE host service identifier variant :
  format HUE_RESPONSE [host; service; identifier; variant]
  = reply host service identifier variant.
Proof.
  rewrite <- (str_app_nil_r variant) at 2. vm_compute. reflexivity.
Qed.

Lemma format_HUE_ST1 identifier : format HUE_ST1 [identifier] = variant1 identifier.
Proof. vm_compute. reflexivity. Qed.

Lemma format_HUE_ST2 identifier : format HUE_ST2 [identifier] = variant2 identifier.
Proof. vm_compute. reflexivity. Qed.

Lemma format_HUE_ST3 identifier : format HUE_ST3 [identifier] = variant3 identifier.
Proof. vm_compute. reflexivity. Qed.

Lemma respond_burst addr port w :
  respond success addr port w =
    returned tt (set_sent (sent w ++ burst w (addr, port)) w).
Proof.
  unfold respond. exec.
  rewrite !format_HUE_RESPONSE, format_HUE_ST1, format_HUE_ST2, format_HUE_ST3.
  destruct w; simpl. unfold set_sent, burst; simpl.
  by rewrite <- !app_assoc.
Qed.

Lemma respond_error e addr port w :
  e ≠ success → respond e addr port w = returned tt w.
Proof. intros H. unfold respond. by rewrite (is_error_true _ H). Qed.

Lemma refresh_error e w : e ≠ success → refresh e w = returned tt w.
Proof. intros H. unfold refresh. by rewrite (is_error_true _ H). Qed.

(** Cancelled waits: their handlers run and do nothing. *)
Lemma invoke_all_aborted (l : list handler) w :
  invoke_all ((λ h, (h, operation_aborted)) <$> l) w = returned tt w.
Proof.
  induction l as [|h l IH]; [done|]. rewrite fmap_cons. simpl.
  erewrite bind_returned; [exact IH|].
  destruct h; [by apply refresh_error|by apply respond_error].
Qed.

(** Response waits that fall due: each sends its burst, nothing else
    changes. *)
Lemma invoke_all_fired (l : list handler) w :
  Forall is_respond l →
  ∃ out, invoke_all ((λ h, (h, success)) <$> l) w
         = returned tt (set_sent (sent w ++ out) w).
Proof.
  intros Hl. revert w. induction Hl as [|h l Hh _ IH]; intros w.
  - exists []. rewrite app_nil_r. by destruct w.
  - destruct h as [|addr port]; [done|]. rewrite fmap_cons. simpl.
    erewrite bind_returned by apply respond_burst.
    destruct (IH (set_sent (sent w ++ burst w (addr, port)) w)) as [out ->].
    exists (burst w (addr, port) ++ out). destruct w; simpl.
    unfold set_sent; simpl. by rewrite <- app_assoc.
Qed.

Lemma dispatch_unfold w : dispatch w = invoke_all (ready w) (set_ready [] w).
Proof. done. Qed.

(** ** [Responder::operator()] and [Listener::receive] *)

Lemma operator_call_returns addr port mx r up w w1 :
  update up w = returned tt w1 →
  operator_call addr port mx r up w
  = returned tt (scheduled (addr, port) (t_response RAND_MAX mx r) w1).
Proof.
  intros H. unfold operator_call. erewrite bind_returned by exact H.
  exec. by destruct w1.
Qed.

Lemma operator_call_throws addr port mx r up w e w1 :
  update up w = thrown e w1 →
  operator_call addr port mx r up w = thrown e w1.
Proof. intros H. unfold operator_call. by erewrite bind_thrown. Qed.

(** A datagram without the request line, or whose ST is not a supported
    type, only re-arms the receive. *)
Lemma receive_discards data sender r up w :
  starts_with request_line data = false
  ∨ at_key (headers (drop_str (String.length request_line) data)) "ST"
      ∉ service_types →
  receive success data sender r up w = returned tt (set_receiving true w).
Proof.
  intros H. unfold receive. exec. rewrite msearch_spec.
  destruct (starts_with request_line data); [|done].
  destruct H as [H|H]; [done|].
  by rewrite bool_decide_eq_false_2.
Qed.

(** An accepted datagram is handed to [operator()] with the sender's
    address and port and the MX value. *)
Lemma receive_accepted data mx sender r up w :
  accepted data mx →
  receive success data sender r up w
  = operator_call sender.1 sender.2 mx r up (set_receiving true w).
Proof.
  intros (start & -> & Hst & Hmx). unfold receive.
  rewrite msearch_accepts, (bool_decide_eq_true_2 _ Hst), Hmx. by exec.
Qed.


(** ** The layout of a reply *)





(** A bridge whose UDN is [uuid:ABC-123], the query [ST: ssdp:all],
    [MX: 2] from 10.0.0.5:51000: two seconds on, the three documented
    datagrams have gone to 10.0.0.5:51000, and nothing else. *)
Example end_to_end_scenario :
  ∃ w, main ["bridge.local:80"]
         [ Datagram success (Scenario.query "ssdp:all" "2") Scenario.alice
             (RAND_MAX / 3) (Scenario.bridge "uuid:ABC-123");
           Idle 2000 ]
       = Running w
     ∧ sent w =
       [ (Scenario.alice, reply "bridge.local" "80" "ABC-123" (variant1 "ABC-123"));
         (Scenario.alice, reply "bridge.local" "80" "ABC-123" (variant2 "ABC-123"));
         (Scenario.alice, reply "bridge.local" "80" "ABC-123" (variant3 "ABC-123")) ].
Proof. vm_compute. eexists. split; reflexivity. Qed.

(** ** C5: the delay of a response *)

Lemma t_response_exact rand_max mx r :
  0 < rand_max ≤ 2147483647 → 0 ≤ mx ≤ 65535 → 0 ≤ r ≤ rand_max →
  t_response rand_max mx r = mx * 1000 * r / rand_max
  ∧ 0 ≤ mx * 1000 * r / rand_max ≤ mx * 1000.
Proof.
  intros Hmax Hmx Hr.
  assert (0 ≤ mx * 1000 * r ≤ mx * 1000 * rand_max) as Hprod by nia.
  assert (0 ≤ mx * 1000 * r / rand_max ≤ mx * 1000) as Hq.
  { split; [apply Z.div_pos; lia|].
    apply Z.div_le_upper_bound; lia. }
  split; [|done].
  unfold t_response, uint32, uint64.
  rewrite (Z.mod_small mx) by lia.
  rewrite (Z.mod_small (mx * 1000)) by lia.
  rewrite (Z.mod_small (mx * 1000 * r)) by nia.
  apply Z.mod_small. lia.
Qed.

(** C5, as the code has it.  For an MX value [mx] and a value [r] of
    [rand()] between 0 and RAND_MAX, the delay in milliseconds is
    [mx * 1000 * r / RAND_MAX], computed without wrap-around; it lies in
    the closed interval from 0 to [mx * 1000], and is strictly below
    [mx * 1000] when [mx] is positive and [r] is below RAND_MAX. *)
Theorem response_delay_bounds (rand_max mx r : Z) :
  0 < rand_max ≤ 2147483647 → 0 ≤ mx ≤ 65535 → 0 ≤ r ≤ rand_max →
  t_response rand_max mx r = mx * 1000 * r / rand_max
  ∧ 0 ≤ t_response rand_max mx r ≤ mx * 1000
  ∧ (0 < mx → r < rand_max → t_response rand_max mx r < mx * 1000).
Proof.
  intros Hmax Hmx Hr.
  destruct (t_response_exact rand_max mx r Hmax Hmx Hr) as [-> Hq].
  split; [done|]. split; [done|].
  intros Hpos Hlt. apply Z.div_lt_upper_bound; [lia|nia].
Qed.

Lemma response_delay_bounds_witness :
  t_response RAND_MAX 2 1073741823 = 2 * 1000 * 1073741823 / RAND_MAX
  ∧ 0 ≤ t_response RAND_MAX 2 1073741823 ≤ 2 * 1000
  ∧ (0 < 2 → 1073741823 < RAND_MAX → t_response RAND_MAX 2 1073741823 < 2 * 1000).
Proof.
  apply (response_delay_bounds RAND_MAX 2 1073741823); unfold RAND_MAX; lia.
Defined.

(** C5 with the open upper bound fails: when [rand()] returns RAND_MAX
    the delay is the whole of [mx * 1000] ms, not less. *)
Lemma response_delay_not_strict :
  ¬ (∀ mx r, 0 ≤ mx ≤ 65535 → 0 ≤ r ≤ RAND_MAX →
       t_response RAND_MAX mx r < mx * 1000).
Proof.
  intros H.
  assert (t_response RAND_MAX 1 RAND_MAX < 1 * 1000) as Hlt
    by (apply H; unfold RAND_MAX; lia).
  by vm_compute in Hlt.
Qed.

(** ** C6, C7, C9: what the listener does with a datagram *)



(** What [receive] does once the request line is there. *)
Lemma receive_request_line start sender r up w :
  receive success (request_line +:+ start) sender r up w =
    if bool_decide (at_key (headers start) "ST" ∈ service_types) then
      match lexical_cast_uint16 (at_key (headers start) "MX") with
      | Some mx => operator_call sender.1 sender.2 mx r up (set_receiving true w)
      | None => returned tt (set_receiving true w)
      end
    else returned tt (set_receiving true w).
Proof.
  unfold receive. rewrite msearch_accepts. exec.
  destruct (bool_decide _); [|done].
  by destruct (lexical_cast_uint16 _).
Qed.

(** A turn of the loop on a datagram that [receive] only re-arms for
    leaves the world as it was. *)
Lemma step_discards w data sender r up :
  receiving w = true → ready w = [] →
  receive success (take_str _max_length data) sender r up (set_receiving false w)
    = returned tt (set_receiving true (set_receiving false w)) →
  step w (Datagram success data sender r up) = Running w.
Proof.
  intros Hrec Hready Hreceive. unfold step, handle.
  erewrite bind_returned by (unfold gets; reflexivity).
  rewrite Hrec.
  erewrite bind_returned by (unfold modify; reflexivity).
  erewrite bind_returned by exact Hreceive.
  rewrite dispatch_unfold. destruct w; simpl in *. subst. done.
Qed.









(** ** A turn of the loop on an accepted query *)

Lemma rearmed w : receiving w = true → set_receiving true (set_receiving false w) = w.
Proof. destruct w; simpl. by intros ->. Qed.

Lemma invoke_all_errors (q : list (handler * error_code)) w :
  Forall (λ x, x.2 ≠ success) q → invoke_all q w = returned tt w.
Proof.
  induction 1 as [|[h e] q He _ IH]; [done|]. simpl in *.
  erewrite bind_returned; [exact IH|].
  destruct h; [by apply refresh_error|by apply respond_error].
Qed.

Lemma aborted_are_errors (l : list handler) :
  Forall (λ x : handler * error_code, x.2 ≠ success)
    ((λ h, (h, operation_aborted)) <$> l).
Proof. induction l; constructor; done. Qed.

Lemma handle_datagram w error data sender r up :
  receiving w = true →
  handle (Datagram error data sender r up) w
  = (receive error (take_str _max_length data) sender r up ≫= λ _, dispatch)
      (set_receiving false w).
Proof.
  intros Hrec. unfold handle.
  erewrite bind_returned by (unfold gets; reflexivity).
  rewrite Hrec. by erewrite bind_returned by (unfold modify; reflexivity).
Qed.

(** If the refresh returns, the response is scheduled, the waits it
    replaces are aborted, and the loop goes on. *)
Lemma step_accepted_returned w data mx sender r up w1 :
  receiving w = true → accepted (take_str _max_length data) mx →
  update up w = returned tt w1 →
  Forall (λ x, x.2 ≠ success) (ready w1) →
  step w (Datagram success data sender r up)
  = Running (set_ready [] (scheduled sender (t_response RAND_MAX mx r) w1)).
Proof.
  intros Hrec Hacc Hup Hready. unfold step.
  rewrite (handle_datagram _ _ _ _ _ _ Hrec).
  erewrite bind_returned; cycle 1.
  { rewrite (receive_accepted _ _ _ _ _ _ Hacc), (rearmed _ Hrec).
    destruct sender. by apply operator_call_returns. }
  rewrite dispatch_unfold, invoke_all_errors.
  - destruct w1; simpl. unfold has_work; simpl. by rewrite orb_true_r.
  - destruct w1; simpl in *. apply Forall_app. split; [done|].
    apply aborted_are_errors.
Qed.


Lemma run_exited code w evs : run (Exited code w) evs = Exited code w.
Proof. by destruct evs. Qed.

(** ** C2, C8: what a fetch leaves behind *)





(** C8, as the code has it.  On a fetch that gets a status line starting
    with HTTP/ and carrying 200, a body read to a clean EOF and parsed,
    and the field at [root.device.UDN]: when the field is [uuid:]
    followed by [x], the identifier becomes [x]; when the field does not
    begin with [uuid:], the identifier is left as it was. *)
Theorem identifier_extraction (w : world) (up : upstream) (udn : string) :
  _refresh w = true → delivers up udn →
  (∀ x, udn = "uuid:" +:+ x →
     ∃ w', update up w = returned tt w' ∧ _uuid w' = x)
  ∧ (starts_with "uuid:" udn = false →
     ∃ w', update up w = returned tt w' ∧ _uuid w' = _uuid w).
Proof.
  intros Hw Hd. rewrite (update_delivers _ _ _ Hw Hd). split.
  - intros x ->. rewrite starts_with_app. eexists. split; [done|].
    simpl. apply (drop_str_app "uuid:").
  - intros ->. by eexists.
Qed.

Lemma sample_bridge_delivers udn : delivers (Scenario.bridge udn) udn.
Proof.
  repeat split. exists (Scenario.description udn), (Node udn []). by repeat split.
Defined.

Lemma identifier_extraction_witness :
  ∃ w', update (Scenario.bridge ("uuid:" +:+ "ABC-123")) Scenario.daemon
        = returned tt w'
    ∧ _uuid w' = "ABC-123".
Proof.
  exact (proj1 (identifier_extraction Scenario.daemon
    (Scenario.bridge ("uuid:" +:+ "ABC-123")) ("uuid:" +:+ "ABC-123")
    eq_refl (sample_bridge_delivers _)) "ABC-123" eq_refl).
Defined.

(** C8 for a UDN without the prefix fails: the field is not stored at
    all, and the identifier stays empty. *)
Lemma unprefixed_udn_not_stored :
  delivers (Scenario.bridge "ABC-123") "ABC-123"
  ∧ ∃ w', update (Scenario.bridge "ABC-123") Scenario.daemon = returned tt w'
      ∧ _uuid w' = EmptyString
      ∧ _uuid w' ≠ "ABC-123".
Proof.
  split; [apply sample_bridge_delivers|].
  eexists. split; [reflexivity|]. split; [reflexivity|discriminate].
Qed.

(** ** C3: the refresh window *)

Lemma handle_datagram_deaf w error data sender r up :
  receiving w = false →
  handle (Datagram error data sender r up) w = returned tt w.
Proof.
  intros Hrec. unfold handle.
  erewrite bind_returned by (unfold gets; reflexivity).
  by rewrite Hrec.
Qed.

(** [receive] either only re-arms, or has an accepted query in hand. *)
Lemma receive_cases data sender r up w :
  receive success data sender r up w = returned tt (set_receiving true w)
  ∨ ∃ mx, accepted data mx.
Proof.
  destruct (starts_with request_line data) eqn:Hs;
    [|left; apply receive_discards; by left].
  pose proof (starts_with_split _ _ Hs) as Hdata.
  destruct (decide (at_key (headers (drop_str (String.length request_line) data)) "ST"
                    ∈ service_types)) as [Hst|Hst];
    [|left; apply receive_discards; by right].
  destruct (lexical_cast_uint16
              (at_key (headers (drop_str (String.length request_line) data)) "MX"))
    as [mx|] eqn:Hmx.
  - right. exists mx, (drop_str (String.length request_line) data).
    split; [exact Hdata|]. split; [exact Hst|exact Hmx].
  - left. rewrite Hdata, receive_request_line, Hmx.
    by rewrite bool_decide_eq_true_2.
Qed.

Lemma has_work_refresh w :
  waiters (_trefresh w) = [refresh_handler] → has_work w = true.
Proof. intros H. unfold has_work. rewrite H. simpl. by rewrite orb_true_r. Qed.

Lemma window_has_work w e : window w e → has_work w = true.
Proof. intros (_ & Ht & _). apply has_work_refresh. by rewrite Ht. Qed.

(** Inside the window a turn of the loop on a datagram makes no fetch and
    leaves the window as it is. *)
Lemma step_datagram_in_window w e error data sender r up :
  window w e →
  ∃ w', step w (Datagram error data sender r up) = Running w'
    ∧ window w' e ∧ fetches w' = fetches w ∧ now w' = now w
    ∧ receiving w' = negb (is_error error) && receiving w.
Proof.
  intros Hwin. pose proof (window_has_work _ _ Hwin) as Hwork.
  destruct Hwin as (Hflag & Ht & Hready & Hresp).
  destruct (receiving w) eqn:Hrec; cycle 1.
  { exists w. unfold step. rewrite handle_datagram_deaf, Hwork by done.
    rewrite andb_false_r. by repeat split. }
  rewrite andb_true_r.
  destruct (is_error error) eqn:Herr.
  { exists (set_receiving false w). unfold step.
    rewrite handle_datagram by done. unfold receive. rewrite Herr.
    erewrite bind_returned by reflexivity.
    rewrite dispatch_unfold. destruct w; simpl in *; subst.
    unfold window. by repeat split. }
  destruct error; try done. simpl.
  destruct (receive_cases (take_str _max_length data) sender r up
              (set_receiving false w)) as [Hdis|[mx Hacc]].
  - exists w. rewrite step_discards by done. by repeat split.
  - eexists. split.
    + eapply step_accepted_returned; [done|exact Hacc|by apply update_skips|].
      by rewrite Hready.
    + destruct w; simpl in *; subst. repeat split; simpl; try done.
      by repeat constructor.
Qed.

Lemma invoke_all_app q1 q2 w w1 :
  invoke_all q1 w = returned tt w1 →
  invoke_all (q1 ++ q2) w = invoke_all q2 w1.
Proof.
  revert w. induction q1 as [|[h e] q1 IH]; intros w; simpl.
  - by intros [= ->].
  - unfold mbind, action_bind.
    destruct (invoke h e w) as [[] w'|]; [apply IH|done].
Qed.

Lemma handle_idle w ms :
  handle (Idle ms) w = dispatch (fire_due (set_now (now w + Z.of_N ms) w)).
Proof. unfold handle, expire_due. by exec. Qed.

Lemma expired_not_due t w : now w < expiry (timer t w) → expired t w = w.
Proof. intros H. unfold expired. by rewrite decide_False by lia. Qed.

Lemma expired_due t w :
  expiry (timer t w) ≤ now w →
  expired t w =
    set_timer t {| expiry := expiry (timer t w); waiters := [] |}
      (set_ready (ready w ++ ((λ h, (h, success)) <$> waiters (timer t w))) w).
Proof. intros H. unfold expired. by rewrite decide_True. Qed.

(** Expiring one timer leaves the clock and the other timer alone. *)
Lemma expired_frame t w :
  now (expired t w) = now w
  ∧ (t = tresponse → _trefresh (expired t w) = _trefresh w)
  ∧ (t = trefresh → _tresponse (expired t w) = _tresponse w).
Proof.
  unfold expired. destruct (decide _); [|done].
  destruct t, w; by repeat split.
Qed.

(** While the window timer is not due, only the response timer matters. *)
Lemma due_in_window w :
  now w < expiry (_trefresh w) → fire_due w = expired tresponse w.
Proof.
  intros H. unfold fire_due. destruct (bool_decide _).
  - by rewrite (expired_not_due trefresh).
  - apply expired_not_due.
    destruct (expired_frame tresponse w) as (Hn & Htr & _).
    simpl. by rewrite Hn, Htr.
Qed.

Lemma dispatch_nothing w : ready w = [] → dispatch w = returned tt w.
Proof. rewrite dispatch_unfold. destruct w; simpl. by intros ->. Qed.

Lemma dispatch_fired (l : list handler) w :
  Forall is_respond l → ready w = (λ h, (h, success)) <$> l →
  ∃ out, dispatch w = returned tt (set_sent (sent w ++ out) (set_ready [] w)).
Proof.
  intros Hl Hw. rewrite dispatch_unfold, Hw.
  destruct (invoke_all_fired l (set_ready [] w) Hl) as [out ->].
  exists out. by destruct w.
Qed.

(** Inside the window, while the loop idles short of its end, due
    responses are sent; no fetch is made and the window stays. *)
Lemma step_idle_in_window w e ms :
  window w e → now w + Z.of_N ms < e →
  ∃ w', step w (Idle ms) = Running w'
    ∧ window w' e ∧ fetches w' = fetches w ∧ now w' = now w + Z.of_N ms
    ∧ receiving w' = receiving w.
Proof.
  intros (Hflag & Ht & Hready & Hresp) Hlt.
  unfold step. rewrite handle_idle.
  rewrite due_in_window by (destruct w; simpl in *; subst; simpl; lia).
  destruct w as [sv sc id fl tr tp rc nw rd sn ft]; simpl in *; subst.
  unfold expired; simpl. destruct (decide (expiry tp ≤ nw + Z.of_N ms)).
  - edestruct (dispatch_fired (waiters tp)) as [out ->]; [done|reflexivity|].
    eexists. split; [by rewrite has_work_refresh|].
    unfold window. repeat split; constructor.
  - rewrite dispatch_nothing by reflexivity.
    eexists. split; [by rewrite has_work_refresh|].
    unfold window. by repeat split.
Qed.

Lemma dispatch_window_end (l1 l2 : list handler) w :
  Forall is_respond l1 → Forall is_respond l2 →
  ready w = ((λ h, (h, success)) <$> l1)
            ++ (refresh_handler, success) :: ((λ h, (h, success)) <$> l2) →
  ∃ out, dispatch w
         = returned tt (set_sent (sent w ++ out) (set_refresh true (set_ready [] w))).
Proof.
  intros H1 H2 Hw. rewrite dispatch_unfold, Hw.
  destruct (invoke_all_fired l1 (set_ready [] w) H1) as [out1 Hout1].
  rewrite (invoke_all_app _ _ _ _ Hout1). simpl.
  erewrite bind_returned by reflexivity.
  edestruct (invoke_all_fired l2) as [out2 ->]; [exact H2|].
  exists (out1 ++ out2). destruct w; simpl. worlds. by rewrite app_assoc.
Qed.

(** When the loop idles past the end of the window, [refresh] runs and
    the flag is up again; still no fetch has been made. *)
Lemma step_idle_ends_window w e ms :
  window w e → e ≤ now w + Z.of_N ms →
  ∃ w', world_at (step w (Idle ms)) = Some w'
    ∧ _refresh w' = true ∧ fetches w' = fetches w ∧ _uuid w' = _uuid w
    ∧ waiters (_trefresh w') = [] ∧ ready w' = []
    ∧ (receiving w = true → step w (Idle ms) = Running w').
Proof.
  intros (Hflag & Ht & Hready & Hresp) Hle.
  assert (∀ W, handle (Idle ms) w = returned tt W →
    world_at (step w (Idle ms)) = Some W
    ∧ (receiving W = true → step w (Idle ms) = Running W)) as Hstep.
  { intros W HW. unfold step. rewrite HW. unfold has_work.
    destruct (receiving W); simpl; [done|].
    split; [by destruct (_ || _)|done]. }
  rewrite handle_idle in Hstep.
  destruct w as [sv sc id fl tr tp rc nw rd sn ft]; simpl in *; subst.
  unfold fire_due, expired in *; simpl in *.
  destruct (bool_decide (e ≤ expiry tp)) eqn:Horder; simpl in *.
  - rewrite (decide_True (P := e ≤ nw + Z.of_N ms)) in * by done. simpl in *.
    destruct (decide (expiry tp ≤ nw + Z.of_N ms)); simpl in *.
    + edestruct (dispatch_window_end [] (waiters tp)) as [out Hout];
        [constructor|exact Hresp| |].
      2: { destruct (Hstep _ Hout) as [Hw Hrun].
           eexists. split; [exact Hw|]. by repeat split. }
      reflexivity.
    + edestruct (dispatch_window_end [] []) as [out Hout];
        [constructor|constructor| |].
      2: { destruct (Hstep _ Hout) as [Hw Hrun].
           eexists. split; [exact Hw|]. by repeat split. }
      reflexivity.
  - apply bool_decide_eq_false_1 in Horder.
    rewrite (decide_True (P := expiry tp ≤ nw + Z.of_N ms)) in * by lia.
    simpl in *.
    rewrite (decide_True (P := e ≤ nw + Z.of_N ms)) in * by done. simpl in *.
    edestruct (dispatch_window_end (waiters tp) []) as [out Hout];
      [exact Hresp|constructor| |].
    2: { destruct (Hstep _ Hout) as [Hw Hrun].
         eexists. split; [exact Hw|]. by repeat split. }
    reflexivity.
Qed.

Lemma duration_nonneg evs : 0 ≤ duration evs.
Proof. induction evs as [|[] evs IH]; simpl; lia. Qed.

Lemma run_in_window w e evs :
  window w e → now w + duration evs < e →
  ∃ w', run (Running w) evs = Running w'
    ∧ window w' e ∧ fetches w' = fetches w.
Proof.
  revert w. induction evs as [|ev evs IH]; intros w Hwin Hlt.
  - by exists w.
  - pose proof (duration_nonneg evs) as Hpos. simpl.
    destruct ev as [error data sender r up|ms]; simpl in Hlt.
    + destruct (step_datagram_in_window w e error data sender r up Hwin)
        as (w1 & -> & Hwin1 & Hf1 & Hn1 & _).
      destruct (IH w1 Hwin1) as (w' & -> & ? & ?); [lia|].
      exists w'. split; [done|]. split; [done|congruence].
    + destruct (step_idle_in_window w e ms Hwin) as (w1 & -> & Hwin1 & Hf1 & Hn1 & _);
        [lia|].
      destruct (IH w1 Hwin1) as (w' & -> & ? & ?); [lia|].
      exists w'. split; [done|]. split; [done|congruence].
Qed.

(** The turn of the loop in which a query opens the window. *)
Lemma step_opens_window w data mx sender r up w1 :
  receiving w = true → ready w = [] → _refresh w = true →
  accepted (take_str _max_length data) mx →
  update up w = returned tt w1 →
  ∃ w', step w (Datagram success data sender r up) = Running w'
    ∧ window w' (now w + 300000) ∧ fetches w' = S (fetches w).
Proof.
  intros Hrec Hready Hw Hacc Hup.
  destruct (update_fetches up w Hw) as [id Hid]. rewrite Hup in Hid.
  simpl in Hid. subst w1. eexists. split.
  - eapply step_accepted_returned; [done|exact Hacc|exact Hup|].
    simpl. rewrite Hready. apply aborted_are_errors.
  - destruct w; simpl in *. unfold window; simpl.
    repeat split. by repeat constructor.
Qed.

(** C3. A call of [update] with the flag up makes one fetch attempt,
    takes the flag down and sets the window timer 300 s ahead, whatever
    the bridge does, failure included; a call with the flag down does
    nothing.  The turn of the loop in which an accepted query makes that
    first call ends inside the window; from there, whatever datagrams
    arrive and however the loop idles short of the window's end, the
    flag stays down and no further fetch attempt is made; and when the
    loop idles past the window's end the flag is up again, so that the
    next call makes another attempt. *)
Theorem fetch_throttling :
  (∀ w up, _refresh w = true →
     fetches (world_of (update up w)) = S (fetches w)
     ∧ _refresh (world_of (update up w)) = false
     ∧ _trefresh (world_of (update up w))
       = {| expiry := now w + 300000; waiters := [refresh_handler] |})
  ∧ (∀ w up, _refresh w = false → update up w = returned tt w)
  ∧ (∀ w data mx sender r up w1,
       receiving w = true → ready w = [] → _refresh w = true →
       accepted (take_str _max_length data) mx →
       update up w = returned tt w1 →
       ∃ w', step w (Datagram success data sender r up) = Running w'
         ∧ window w' (now w + 300000) ∧ fetches w' = S (fetches w))
  ∧ (∀ w e evs, window w e → now w + duration evs < e →
       ∃ w', run (Running w) evs = Running w'
         ∧ window w' e ∧ fetches w' = fetches w)
  ∧ (∀ w e ms, window w e → e ≤ now w + Z.of_N ms →
       ∃ w', world_at (step w (Idle ms)) = Some w'
         ∧ _refresh w' = true ∧ fetches w' = fetches w).
Proof.
  split; [|split; [|split; [|split]]].
  - intros w up Hw. destruct (update_fetches up w Hw) as [id ->].
    by destruct w.
  - intros w up. apply update_skips.
  - intros w data mx sender r up w1. apply step_opens_window.
  - apply run_in_window.
  - intros w e ms Hwin Hle.
    destruct (step_idle_ends_window w e ms Hwin Hle) as (w' & ? & ? & ? & _).
    by exists w'.
Qed.

Lemma fetch_throttling_witness :
  update (Scenario.bridge "uuid:ABC-123") (set_refresh false Scenario.daemon)
  = returned tt (set_refresh false Scenario.daemon).
Proof.
  exact (proj1 (proj2 fetch_throttling) (set_refresh false Scenario.daemon)
           (Scenario.bridge "uuid:ABC-123") eq_refl).
Defined.

(** The window is a state the daemon reaches: its first accepted query
    opens one that ends 300 s after the start. *)
Example window_reached :
  ∃ w, main ["bridge.local:80"]
         [ Datagram success (Scenario.query "ssdp:all" "2") Scenario.alice 7
             Scenario.not_found ]
       = Running w
     ∧ window w 300000.
Proof.
  vm_compute. eexists. split; [reflexivity|].
  unfold window. simpl. repeat split. by repeat constructor.
Qed.

(** Three queries, the second inside the window of the first, the third
    after it: two fetch attempts, though the first one failed. *)
Example throttling_scenario :
  ∃ w, main ["bridge.local:80"]
         [ Datagram success (Scenario.query "ssdp:all" "2") Scenario.alice 7
             Scenario.not_found;
           Idle 299000;
           Datagram success (Scenario.query "ssdp:all" "2") Scenario.bob 7
             (Scenario.bridge "uuid:ABC-123");
           Idle 2000;
           Datagram success (Scenario.query "ssdp:all" "2") Scenario.alice 7
             (Scenario.bridge "uuid:ABC-123") ]
       = Running w
     ∧ fetches w = 2%nat ∧ _uuid w = "ABC-123".
Proof. vm_compute. eexists. split; [reflexivity|]. split; reflexivity. Qed.

(** ** C10: after a receive has failed *)




Lemma fire_due_fields w :
  _uuid (fire_due w) = _uuid w ∧ receiving (fire_due w) = receiving w
  ∧ now (fire_due w) = now w ∧ fetches (fire_due w) = fetches w
  ∧ expiry (_tresponse (fire_due w)) = expiry (_tresponse w)
  ∧ (waiters (_tresponse (fire_due w)) = waiters (_tresponse w)
     ∨ waiters (_tresponse (fire_due w)) = []).
Proof.
  unfold fire_due, expired. destruct w; simpl.
  repeat (case_bool_decide || case_decide; simpl); tauto.
Qed.









(** ** C1: two queries in flight *)



(** C1 on two queries.  Alice's query is accepted and her response is
    due about a second later; ten milliseconds on Bob's query is
    accepted.  When both delays have long passed, three datagrams have
    been sent, all to Bob: Alice's response was cancelled by Bob's
    query and is never sent. *)
Theorem later_query_cancels_earlier :
  (∃ w1, main ["bridge.local:80"]
           [ Datagram success (Scenario.query "ssdp:all" "2") Scenario.alice
               (RAND_MAX / 2) (Scenario.bridge "uuid:ABC-123");
             Idle 10 ]
         = Running w1
       ∧ waiters (_tresponse w1)
         = [respond_handler Scenario.alice.1 Scenario.alice.2]
       ∧ now w1 < expiry (_tresponse w1)
       ∧ sent w1 = [])
  ∧ (∃ w2, main ["bridge.local:80"]
             [ Datagram success (Scenario.query "ssdp:all" "2") Scenario.alice
                 (RAND_MAX / 2) (Scenario.bridge "uuid:ABC-123");
               Idle 10;
               Datagram success (Scenario.query "ssdp:all" "2") Scenario.bob
                 (RAND_MAX / 2) (Scenario.bridge "uuid:ABC-123");
               Idle 5000 ]
           = Running w2
         ∧ sent w2 = burst w2 Scenario.bob
         ∧ waiters (_tresponse w2) = []
         ∧ Forall (λ d, d.1 ≠ Scenario.alice) (sent w2)).
Proof.
  vm_compute. split.
  - eexists. split; [reflexivity|]. by repeat split.
  - eexists. split; [reflexivity|]. split; [reflexivity|]. split; [reflexivity|].
    repeat constructor; simpl; discriminate.
Qed.

(** ** C4: a response, from the query to the datagrams *)







(** * Further properties *)

(** ** The request line test *)

(** X2. The first test of [receive] passes exactly on the datagrams that
    begin with [M-SEARCH * HTTP/1.1], compared character for character,
    and then hands the text behind the request line to the header loop;
    it captures nothing. *)
Theorem request_line_test (data : string) (groups : list string) (start : string) :
  Regex.regex_search msearch data = Some (groups, start)
  ↔ groups = [] ∧ data = request_line +:+ start.
Proof.
  rewrite msearch_spec. split.
  - destruct (starts_with request_line data) eqn:Hs; [|done].
    intros [= <- <-]. split; [done|]. by apply starts_with_split.
  - intros [-> ->]. by rewrite starts_with_app, drop_str_app.
Qed.

(** ** Header lines, written and read back *)

Lemma many_exact a k caps pre s r :
  pre ≠ EmptyString → all_chars (Regex.accepts a) pre = true →
  Regex.many a k (Regex.push_str pre caps) s = None →
  k (Regex.push_str pre caps) s = Some r →
  Regex.many a k caps (pre +:+ s) = Some r.
Proof.
  revert caps. induction pre as [|c pre IH]; intros caps Hne Hall Hlonger Hk; [done|].
  simpl in Hall. apply andb_prop in Hall as [Hc Hall]. simpl. rewrite Hc.
  destruct pre as [|d pre].
  - simpl in *. by rewrite Hlonger.
  - rewrite (IH (Regex.push c caps)); done.
Qed.

Lemma many_stops a k caps s :
  match s with
  | EmptyString => True
  | String c _ => Regex.accepts a c = false
  end →
  Regex.many a k caps s = None.
Proof. destruct s as [|c s]; simpl; [done|]. by intros ->. Qed.

Lemma space_is_no_colon sp : Ascii.is_space sp = true → sp ≠ ":"%char.
Proof. by intros H ->. Qed.

(** Where a name, a colon, one whitespace character and a value stand,
    with whitespace or nothing behind, [expr] matches just that. *)
Lemma expr_match_line b name sp value rest :
  token name → Ascii.is_space sp = true → token value → token_ends rest →
  Regex.match_here expr b Regex.no_captures
    (name +:+ String ":" (String sp (value +:+ rest)))
  = Some ([name; value], rest).
Proof.
  intros [Hn Hname] Hsp [Hv Hvalue] Hrest. unfold expr. simpl.
  apply many_exact; [done|done| |].
  - simpl. rewrite Hsp. simpl.
    rewrite opened_push_str. simpl.
    by rewrite (bool_decide_eq_false_2 _ (space_is_no_colon _ Hsp)).
  - simpl. rewrite opened_push_str, closed_push_str. simpl.
    rewrite Hsp. simpl.
    rewrite (many_exact Regex.NonSpace _ _ value rest ([name; value], rest));
      [done|done|done| |].
    + apply many_stops. destruct rest as [|c rest]; [done|].
      simpl in *. by rewrite Hrest.
    + simpl. by rewrite opened_push_str, closed_push_str.
Qed.

Lemma search_from_hit its b s r :
  Regex.match_here its b Regex.no_captures s = Some r →
  Regex.search_from its b s = Some r.
Proof. intros H. destruct s; simpl; by rewrite H. Qed.

(** The search for [expr] steps over whitespace. *)
Lemma expr_search_skips b c s :
  Ascii.is_space c = true →
  Regex.search_from expr b (String c s) = Regex.regex_search expr s.
Proof.
  intros Hc. unfold Regex.regex_search. cbn [Regex.search_from].
  assert (Regex.match_here expr b Regex.no_captures (String c s) = None) as ->.
  { unfold expr. simpl. by rewrite Hc. }
  by destruct s.
Qed.

Lemma pairs_skip_space c s : Ascii.is_space c = true → pairs (String c s) = pairs s.
Proof.
  intros Hc. unfold pairs. simpl.
  unfold Regex.regex_search. rewrite expr_search_skips by done.
  rewrite <- (header_pairs_fuel (S (String.length s)) (String.length s) s) by lia.
  done.
Qed.

Lemma pairs_line name sp value rest :
  token name → Ascii.is_space sp = true → token value → token_ends rest →
  pairs (name +:+ String ":" (String sp (value +:+ rest)))
  = (name, value) :: pairs rest.
Proof.
  intros Hn Hsp Hv Hrest. unfold pairs.
  set (s := name +:+ String ":" (String sp (value +:+ rest))).
  assert (Regex.regex_search expr s = Some ([name; value], rest)) as Hs.
  { apply search_from_hit. by apply expr_match_line. }
  pose proof (expr_search_consumes _ _ _ Hs) as Hlen.
  destruct (String.length s) as [|n] eqn:Hn'; [lia|].
  simpl. rewrite Hs. f_equal. apply header_pairs_fuel; lia.
Qed.

Lemma pairs_render l tail :
  Forall (λ p, token p.1 ∧ token p.2) l →
  pairs (render l +:+ tail) = l ++ pairs tail.
Proof.
  induction 1 as [|[name value] l [Hn Hv] _ IH]; [done|].
  simpl in *. unfold render_line. simpl. rewrite !str_app_assoc. simpl.
  rewrite !str_app_assoc.
  rewrite (pairs_line name " " value (CRLF +:+ render l +:+ tail));
    [|done|done|done|done].
  unfold CRLF at 1. simpl.
  rewrite !pairs_skip_space by done. by rewrite IH.
Qed.

(** X3. A block of header lines, each a name, a colon, a blank, a value
    and CRLF, with names and values free of whitespace, is read back by
    the header loop as it was written, pair for pair and in order, both
    behind the CRLF that ends the request line and before the blank
    line that ends the datagram; [request[key]] is then the value of the
    last line named [key], or empty when there is none. *)
Theorem headers_read_back (l : list (string * string)) :
  Forall (λ p, token p.1 ∧ token p.2) l →
  pairs (CRLF +:+ render l +:+ CRLF) = l
  ∧ ∀ key, at_key (headers (CRLF +:+ render l +:+ CRLF)) key
           = default EmptyString (last_value key l).
Proof.
  intros Hl.
  assert (pairs (CRLF +:+ render l +:+ CRLF) = l) as Hpairs.
  { unfold CRLF at 1. simpl. rewrite !pairs_skip_space by done.
    rewrite pairs_render by done.
    replace (pairs CRLF) with (@nil (string * string)) by (by vm_compute).
    apply app_nil_r. }
  split; [done|]. intros key. unfold at_key.
  by rewrite headers_last_wins, Hpairs.
Qed.

Lemma headers_read_back_witness :
  pairs (CRLF +:+ render [("HOST", "239.255.255.250:1900"); ("ST", "ssdp:all");
                          ("MX", "2")] +:+ CRLF)
  = [("HOST", "239.255.255.250:1900"); ("ST", "ssdp:all"); ("MX", "2")].
Proof.
  refine (proj1 (headers_read_back
    [("HOST", "239.255.255.250:1900"); ("ST", "ssdp:all"); ("MX", "2")] _)).
  repeat constructor; simpl; discriminate.
Defined.

(** ** The argument of [main] *)

Lemma find_first_of_none c s :
  find_first_of c s = None → ∀ a b, s ≠ a +:+ String c b.
Proof.
  induction s as [|d s IH]; simpl; intros H a b.
  - by destruct a.
  - destruct (bool_decide (d = c)) eqn:Hd; [done|].
    apply bool_decide_eq_false_1 in Hd.
    destruct (find_first_of c s) eqn:Hf; [done|].
    destruct a as [|x a]; simpl; intros [= ? ?]; [done|].
    by eapply IH.
Qed.

Lemma find_first_of_split c host service :
  all_chars (λ d, negb (bool_decide (d = c))) host = true →
  find_first_of c (host +:+ String c service) = Some (String.length host)
  ∧ take_str (String.length host) (host +:+ String c service) = host
  ∧ drop_str (S (String.length host)) (host +:+ String c service) = service.
Proof.
  induction host as [|d host IH]; simpl.
  - intros _. rewrite bool_decide_eq_true_2 by done. by destruct service.
  - intros [Hd Hhost]%andb_prop. apply negb_true_iff in Hd. rewrite Hd.
    destruct (IH Hhost) as (-> & Htake & Hdrop).
    repeat split; [|exact Hdrop].
    change (String d (take_str (String.length host) (host +:+ String c service))
            = String d host).
    by rewrite Htake.
Qed.

(** X1. [main] wants exactly one argument with a colon in it; anything
    else ends in the usage error, before any socket is opened.  An
    argument [host:service] whose host has no colon is split at its
    first colon: the daemon starts with that host and that service,
    whatever further colons the service holds.  (The sockets of the two
    constructors are taken to open.) *)
Theorem main_arguments (evs : list event) :
  (∀ args, length args ≠ 1%nat →
     main args evs = Usage ∧ exit_code (main args evs) = Some EXIT_FAILURE)
  ∧ (∀ param, (∀ a b, param ≠ a +:+ ":" +:+ b) →
       main [param] evs = Usage ∧ exit_code (main [param] evs) = Some EXIT_FAILURE)
  ∧ (∀ host service,
       all_chars (λ c, negb (bool_decide (c = ":"%char))) host = true →
       main [host +:+ ":" +:+ service] evs
       = run (Running (start host service)) evs).
Proof.
  split; [|split].
  - intros [|a [|b args]] Hlen; simpl in Hlen; try done; lia.
  - intros param Hparam. unfold main.
    destruct (find_first_of ":" param) as [n|] eqn:Hf; [|done].
    exfalso. clear -Hf Hparam.
    revert n Hf Hparam. induction param as [|d param IH]; intros n; simpl; [done|].
    destruct (bool_decide (d = ":"%char)) eqn:Hd.
    + apply bool_decide_eq_true_1 in Hd as ->. intros _ H.
      by apply (H EmptyString param).
    + destruct (find_first_of ":" param) as [m|] eqn:Hm; [|done].
      intros _ H. apply (IH m eq_refl). intros a b ->.
      by apply (H (String d a) b).
  - intros host service Hhost. unfold main.
    change (host +:+ ":" +:+ service) with (host +:+ String ":" service).
    destruct (find_first_of_split ":" host service Hhost) as (-> & -> & ->).
    done.
Qed.

Lemma main_arguments_witness :
  main ["my-hue.local:80"] [] = run (Running (start "my-hue.local" "80")) [].
Proof.
  exact (proj2 (proj2 (main_arguments [])) "my-hue.local" "80" eq_refl).
Defined.

(** ** What a turn of the loop makes of the world *)

Lemma output_frame w w' q :
  _server w' = _server w → _service w' = _service w → _uuid w' = _uuid w →
  output w' q = output w q.
Proof.
  intros H1 H2 H3.
  induction q as [|[[|addr port] []] q IH]; simpl; rewrite ?IH; try done.
  unfold burst. by rewrite H1, H2, H3.
Qed.

Lemma invoke_all_effect q w :
  invoke_all q w
  = returned tt (set_sent (sent w ++ output w q)
                   (set_refresh (flag_after q (_refresh w)) w)).
Proof.
  revert w. induction q as [|[h e] q IH]; intros w.
  - simpl. rewrite app_nil_r. by destruct w.
  - destruct (decide (e = success)) as [->|He].
    + destruct h as [|addr port]; simpl.
      * erewrite bind_returned by reflexivity. rewrite IH.
        rewrite (output_frame w (set_refresh true w)) by done. by destruct w.
      * erewrite bind_returned by apply respond_burst. rewrite IH.
        rewrite (output_frame w (set_sent _ w)) by done.
        destruct w; simpl. worlds. by rewrite <- app_assoc.
    + assert (invoke h e w = returned tt w) as Hinv
        by (destruct h; [by apply refresh_error|by apply respond_error]).
      simpl. erewrite bind_returned by exact Hinv. rewrite IH.
      by destruct h, e.
Qed.

Lemma dispatch_effect w : dispatch w = returned tt (dispatched w).
Proof.
  rewrite dispatch_unfold, invoke_all_effect.
  rewrite (output_frame w (set_ready [] w)) by done. by destruct w.
Qed.

Lemma dispatched_nothing w : ready w = [] → dispatched w = w.
Proof.
  intros H. unfold dispatched. rewrite H. simpl. rewrite app_nil_r. destruct w.
  simpl in *. by subst.
Qed.

Lemma flag_after_aborted (l : list handler) flag :
  flag_after ((λ h, (h, operation_aborted)) <$> l) flag = flag.
Proof. induction l as [|[] l IH]; simpl; done. Qed.

Lemma output_aborted w (l : list handler) :
  output w ((λ h, (h, operation_aborted)) <$> l) = [].
Proof. induction l as [|[] l IH]; simpl; done. Qed.

(** Every exchange with the bridge either runs into one of the faults or
    gets as far as the UDN field. *)
Lemma upstream_cases up : (∃ f, suffers up f) ∨ (∃ udn, delivers up udn).
Proof.
  destruct (decide (resolve_error up = success)) as [H1|H1];
    [|left; exists connection_failure; simpl; auto].
  destruct (decide (connect_error up = success)) as [H2|H2];
    [|left; exists connection_failure; simpl; auto].
  destruct (decide (write_error up = success)) as [H3|H3];
    [|left; exists connection_failure; simpl; auto].
  destruct (decide (status_read_error up = success)) as [H4|H4];
    [|left; exists premature_end; simpl; auto].
  assert (connected up) as Hc by done.
  assert (Decision (status_accepted up)) as Hdec
    by (unfold status_accepted; apply _).
  destruct Hdec as [Hst|Hst]; [|left; by exists status_rejected].
  destruct (decide (headers_read_error up = success)) as [H5|H5];
    [|left; exists premature_end; simpl; auto].
  destruct (decide (body_end up = eof)) as [H6|H6];
    [|left; exists premature_end; simpl; auto 10].
  destruct (document up) as [tree|] eqn:Hdoc;
    [|left; exists malformed_body; simpl; auto 10].
  destruct (get_child ["root"; "device"; "UDN"] tree) as [node|] eqn:Hnode.
  - right. exists (data_of node).
    refine (conj Hc (conj Hst (conj H5 (conj H6 _)))). by exists tree, node.
  - left. exists malformed_body.
    refine (conj Hc (conj Hst (conj H5 (conj H6 _)))). right. by exists tree.
Qed.

(** The ways [update] can end when the flag is up. *)
Lemma update_outcomes up w :
  _refresh w = true →
  (suffers up status_rejected ∧ update up w = returned tt (fetching up w))
  ∨ (∃ f e, f ≠ status_rejected ∧ suffers up f
       ∧ update up w = thrown e (fetching up w))
  ∨ (∃ udn, delivers up udn
       ∧ update up w
         = returned tt (if starts_with "uuid:" udn
                        then set_uuid (drop_str 5 udn) (fetching up w)
                        else fetching up w)).
Proof.
  intros Hw. destruct (upstream_cases up) as [[f Hf]|[udn Hd]].
  - assert (f = status_rejected ∨ f ≠ status_rejected) as [->|Hne]
      by (destruct f; auto).
    + left. split; [done|]. by apply update_status_rejected.
    + right. left. destruct (update_throws up w f Hw Hf Hne) as [e He].
      by exists f, e.
  - right. right. exists udn. split; [done|]. by apply update_delivers.
Qed.

(** What [handle] does, case by case. *)
Lemma handle_cases w ev :
  match ev with
  | Idle ms =>
      handle ev w
      = returned tt (dispatched (fire_due (set_now (now w + Z.of_N ms) w)))
  | Datagram error data sender r up =>
      (receiving w = false ∧ handle ev w = returned tt w)
      ∨ (receiving w = true ∧ is_error error = true
         ∧ handle ev w = returned tt (dispatched (set_receiving false w)))
      ∨ (receiving w = true ∧ is_error error = false
         ∧ handle ev w = returned tt (dispatched w))
      ∨ (receiving w = true ∧ is_error error = false
         ∧ ∃ mx, accepted (take_str _max_length data) mx
           ∧ ((∃ w1, update up w = returned tt w1
                 ∧ handle ev w
                   = returned tt
                       (dispatched
                          (scheduled sender (t_response RAND_MAX mx r) w1)))
              ∨ (∃ e w1, update up w = thrown e w1
                   ∧ handle ev w = thrown e w1)))
  end.
Proof.
  destruct ev as [error data sender r up|ms].
  - destruct (receiving w) eqn:Hrec;
      [|left; split; [done|by apply handle_datagram_deaf]].
    right. rewrite handle_datagram by done.
    destruct (is_error error) eqn:Herr.
    { left. repeat split. unfold receive. rewrite Herr.
      erewrite bind_returned by reflexivity. apply dispatch_effect. }
    right. destruct error; try done.
    destruct (receive_cases (take_str _max_length data) sender r up
                (set_receiving false w)) as [Hdis|[mx Hacc]].
    + left. repeat split. erewrite bind_returned by exact Hdis.
      rewrite rearmed by done. apply dispatch_effect.
    + right. repeat split. exists mx. split; [done|].
      destruct (update up w) as [[] w1|e w1] eqn:Hup.
      * left. exists w1. split; [done|].
        erewrite bind_returned; [apply dispatch_effect|].
        rewrite (receive_accepted _ _ _ _ _ _ Hacc), (rearmed _ Hrec).
        destruct sender. by apply operator_call_returns.
      * right. exists e, w1. split; [done|].
        erewrite bind_thrown; [done|].
        rewrite (receive_accepted _ _ _ _ _ _ Hacc), (rearmed _ Hrec).
        by apply operator_call_throws.
  - rewrite handle_idle. apply dispatch_effect.
Qed.

(** ** An invariant of the loop *)

Lemma start_settled host service : settled host service (start host service).
Proof.
  unfold settled, start; simpl. split_and!; try done; try lia.
  - by left.
  - by left.
  - by exists [].
Qed.

Lemma settled_ready host service w : settled host service w → ready w = [].
Proof. by intros (_ & _ & H & _). Qed.

Lemma settled_receiving host service w b :
  settled host service w → settled host service (set_receiving b w).
Proof. by destruct w. Qed.

Lemma settled_fetching host service up w :
  settled host service w → _refresh w = true →
  settled host service (fetching up w)
  ∧ ∀ identifier, settled host service (set_uuid identifier (fetching up w)).
Proof.
  intros (Hs & Hv & Hr & Hflag & Hresp & Hexp & Hup & l & Hsent) Hw.
  destruct Hflag as [[_ Hwait]|[Hflag _]]; [|congruence].
  specialize (Hup Hw). destruct w; simpl in *. subst.
  assert (0 ≤ Z.of_N (elapsed up)) by lia.
  unfold settled, fetching, t_refresh; simpl. rewrite Hwait.
  split; [|intros identifier]; (split_and!; try done; try lia;
    [by right|by exists l]).
Qed.

Lemma settled_update host service up w :
  settled host service w → settled host service (world_of (update up w)).
Proof.
  intros Hw. destruct (_refresh w) eqn:Hflag.
  - destruct (update_fetches up w Hflag) as [identifier ->].
    by apply settled_fetching.
  - by rewrite update_skips.
Qed.

Lemma settled_scheduled host service sender delay w :
  settled host service w →
  settled host service (dispatched (scheduled sender delay w)).
Proof.
  intros (Hs & Hv & Hr & Hflag & Hresp & Hexp & Hup & l & Hsent).
  unfold dispatched, scheduled. destruct w; simpl in *. subst. worlds.
  rewrite flag_after_aborted.
  rewrite output_aborted.
  unfold settled; simpl. rewrite app_nil_r.
  split_and!; try done; try lia; try (by exists l). right. by eexists _, _.
Qed.

Lemma burst_burst_of w to :
  burst w to = burst_of (_server w) (_service w) (_uuid w, to).
Proof. done. Qed.

#[local] Arguments burst : simpl never.

(** Which timers [fire_due] fires. *)
Lemma fire_due_cases w :
  (now w < expiry (_trefresh w) ∧ now w < expiry (_tresponse w)
   ∧ fire_due w = w)
  ∨ (expiry (_trefresh w) ≤ now w ∧ now w < expiry (_tresponse w)
     ∧ fire_due w = fired trefresh w)
  ∨ (now w < expiry (_trefresh w) ∧ expiry (_tresponse w) ≤ now w
     ∧ fire_due w = fired tresponse w)
  ∨ (expiry (_trefresh w) ≤ now w ∧ expiry (_tresponse w) ≤ now w
     ∧ (fire_due w = fired tresponse (fired trefresh w)
        ∨ fire_due w = fired trefresh (fired tresponse w))).
Proof.
  destruct (decide (expiry (_trefresh w) ≤ now w)) as [H1|H1],
    (decide (expiry (_tresponse w) ≤ now w)) as [H2|H2].
  - right; right; right. split; [done|]. split; [done|].
    unfold fire_due. destruct (bool_decide _); [left|right].
    + rewrite (expired_due trefresh w H1). apply expired_due. by destruct w.
    + rewrite (expired_due tresponse w H2). apply expired_due. by destruct w.
  - right; left. split; [done|]. split; [lia|].
    unfold fire_due. destruct (bool_decide _).
    + rewrite (expired_due trefresh w H1). apply expired_not_due.
      destruct w; simpl in *; lia.
    + rewrite (expired_not_due tresponse w) by (simpl; lia).
      by apply expired_due.
  - right; right; left. split; [lia|]. split; [done|].
    unfold fire_due. destruct (bool_decide _).
    + rewrite (expired_not_due trefresh w) by (simpl; lia).
      by apply expired_due.
    + rewrite (expired_due tresponse w H2). apply expired_not_due.
      destruct w; simpl in *; lia.
  - left. split; [lia|]. split; [lia|].
    unfold fire_due. destruct (bool_decide _).
    + rewrite (expired_not_due trefresh w) by (simpl; lia).
      apply expired_not_due; simpl; lia.
    + rewrite (expired_not_due tresponse w) by (simpl; lia).
      apply expired_not_due; simpl; lia.
Qed.

Ltac records :=
  cbv [dispatched scheduled fired timer set_timer set_uuid set_refresh
       set_trefresh set_tresponse set_receiving set_now set_ready set_sent
       set_fetches _server _service _uuid _refresh _trefresh _tresponse
       receiving now ready sent fetches expiry waiters];
  simpl.

Lemma settled_idle host service w ms :
  settled host service w →
  settled host service (dispatched (fire_due (set_now (now w + Z.of_N ms) w))).
Proof.
  intros (Hs & Hv & Hr & Hflag & Hresp & Hexp & Hup & l & Hsent).
  assert (0 ≤ Z.of_N ms) by lia.
  destruct (fire_due_cases (set_now (now w + Z.of_N ms) w))
    as [(H1 & H2 & ->)|[(H1 & H2 & ->)|[(H1 & H2 & ->)|(H1 & H2 & [-> | ->])]]];
    destruct w as [sv sc id flag [e1 q1] [e2 q2] rec nw rd sn ft]; simpl in *;
    destruct Hflag as [[? ?]|[? ?]], Hresp as [?|(addr & port & ?)]; subst;
    records; rewrite ?burst_burst_of; simpl; rewrite ?app_nil_r;
    unfold settled; simpl;
    (split_and!; try done; try (intros; lia);
     try (by left); try (by right); try (right; by eexists _, _);
     try (by exists l);
     eexists (l ++ [(_, (addr, port))]);
     by rewrite fmap_app, concat_app; simpl; rewrite ?app_nil_r).
Qed.

Lemma step_settled host service w ev w' :
  settled host service w → world_at (step w ev) = Some w' →
  settled host service w'.
Proof.
  intros Hw. unfold step. pose proof (handle_cases w ev) as H.
  destruct ev as [error data sender r up|ms].
  - destruct H as [[_ ->]|[(_ & _ & ->)|[(_ & _ & ->)
      |(_ & _ & mx & _ & [(w1 & Hup & ->)|(e & w1 & Hup & ->)])]]].
    + destruct (has_work w); by intros [= <-].
    + rewrite dispatched_nothing by (by destruct w; apply (settled_ready _ _ _ Hw)).
      destruct (has_work _); intros [= <-]; by apply settled_receiving.
    + rewrite dispatched_nothing by apply (settled_ready _ _ _ Hw).
      destruct (has_work w); by intros [= <-].
    + pose proof (settled_update _ _ up _ Hw) as H1. rewrite Hup in H1.
      destruct (has_work _); intros [= <-]; by apply settled_scheduled.
    + pose proof (settled_update _ _ up _ Hw) as H1. rewrite Hup in H1.
      by intros [= <-].
  - rewrite H. destruct (has_work _); intros [= <-]; by apply settled_idle.
Qed.

Lemma step_runs_or_exits w ev :
  (∃ w', step w ev = Running w') ∨ (∃ code w', step w ev = Exited code w').
Proof.
  unfold step. destruct (handle ev w) as [[] w'|e w'];
    [destruct (has_work w')|]; eauto.
Qed.

Lemma run_settled host service evs w w' :
  settled host service w → world_at (run (Running w) evs) = Some w' →
  settled host service w'.
Proof.
  revert w. induction evs as [|ev evs IH]; intros w Hw; simpl.
  - by intros [= <-].
  - destruct (step_runs_or_exits w ev) as [[w1 H1]|(code & w1 & H1)];
      pose proof (step_settled _ _ w ev w1 Hw) as Hw1;
      rewrite H1 in *; specialize (Hw1 eq_refl).
    + by apply IH.
    + rewrite run_exited. by intros [= <-].
Qed.

(** X4. At the end of every turn of every run the handler queue is
    empty, each timer holds at most one wait, and the refresh flag is up
    exactly when nothing waits on the window timer: the wait there is
    the handler that will raise the flag again.  (Sends are taken to
    succeed, as everywhere in this model.) *)
Theorem timers_hold_one_wait host service evs w :
  world_at (run (Running (start host service)) evs) = Some w →
  ready w = []
  ∧ ((_refresh w = true ∧ waiters (_trefresh w) = [])
     ∨ (_refresh w = false ∧ waiters (_trefresh w) = [refresh_handler]))
  ∧ (waiters (_tresponse w) = []
     ∨ ∃ addr port, waiters (_tresponse w) = [respond_handler addr port]).
Proof.
  intros Hrun.
  destruct (run_settled host service evs _ w (start_settled host service) Hrun)
    as (_ & _ & Hready & Hflag & Hresp & _).
  done.
Qed.

Lemma timers_hold_one_wait_witness :
  let w := default Scenario.daemon
             (world_at
                (run (Running (start "bridge.local" "80"))
                   [Datagram success (Scenario.query "ssdp:all" "2")
                      Scenario.alice 7 (Scenario.bridge "uuid:ABC-123")])) in
  ready w = []
  ∧ ((_refresh w = true ∧ waiters (_trefresh w) = [])
     ∨ (_refresh w = false ∧ waiters (_trefresh w) = [refresh_handler]))
  ∧ (waiters (_tresponse w) = []
     ∨ ∃ addr port, waiters (_tresponse w) = [respond_handler addr port]).
Proof.
  refine (timers_hold_one_wait "bridge.local" "80"
            [Datagram success (Scenario.query "ssdp:all" "2") Scenario.alice 7
               (Scenario.bridge "uuid:ABC-123")] _ _).
  vm_compute. reflexivity.
Defined.

(** X5. The refresh window limits the fetches of a whole run: when the
    daemon has made [n] attempts to fetch the description, at least
    [(n - 1) * 300] seconds of its clock have passed since the start. *)
Theorem fetches_are_spaced host service evs w :
  world_at (run (Running (start host service)) evs) = Some w →
  t_refresh * 1000 * (Z.of_nat (fetches w) - 1) ≤ now w.
Proof.
  intros Hrun.
  destruct (run_settled host service evs _ w (start_settled host service) Hrun)
    as (_ & _ & _ & _ & _ & Hexp & _).
  unfold t_refresh. lia.
Qed.

Lemma fetches_are_spaced_witness :
  let w := default Scenario.daemon
             (world_at
                (run (Running (start "bridge.local" "80"))
                   [Datagram success (Scenario.query "ssdp:all" "2")
                      Scenario.alice 7 Scenario.not_found;
                    Idle 299980;
                    Datagram success (Scenario.query "ssdp:all" "2")
                      Scenario.bob 7 Scenario.unreachable])) in
  t_refresh * 1000 * (Z.of_nat (fetches w) - 1) ≤ now w.
Proof.
  refine (fetches_are_spaced "bridge.local" "80"
            [Datagram success (Scenario.query "ssdp:all" "2") Scenario.alice 7
               Scenario.not_found;
             Idle 299980;
             Datagram success (Scenario.query "ssdp:all" "2") Scenario.bob 7
               Scenario.unreachable] _ _).
  vm_compute. reflexivity.
Defined.

Lemma length_bursts host service (l : list (string * endpoint)) :
  length (concat (burst_of host service <$> l)) = (3 * length l)%nat.
Proof.
  induction l as [|p l IH]; [done|].
  rewrite fmap_cons, concat_cons, length_app, IH. simpl. lia.
Qed.

(** X6. Whatever the daemon has sent at any point of any run is a
    sequence of whole bursts: three datagrams to one endpoint, one per
    variant, each carrying the host and service [main] was started
    with.  Nothing else ever leaves the socket, and the host and
    service never change.  (With every [send_to] succeeding: a send
    that throws is outside this model.) *)
Theorem sends_whole_bursts host service evs w :
  world_at (run (Running (start host service)) evs) = Some w →
  _server w = host ∧ _service w = service
  ∧ ∃ l, sent w = concat (burst_of host service <$> l)
      ∧ length (sent w) = (3 * length l)%nat.
Proof.
  intros Hrun.
  destruct (run_settled host service evs _ w (start_settled host service) Hrun)
    as (Hs & Hv & _ & _ & _ & _ & _ & l & Hsent).
  split; [done|]. split; [done|]. exists l. split; [done|].
  rewrite Hsent. apply length_bursts.
Qed.

Lemma sends_whole_bursts_witness :
  let w := default Scenario.daemon
             (world_at
                (run (Running (start "bridge.local" "80"))
                   [Datagram success (Scenario.query "ssdp:all" "0")
                      Scenario.alice 7 (Scenario.bridge "uuid:ABC-123");
                    Idle 1])) in
  _server w = "bridge.local" ∧ _service w = "80"
  ∧ ∃ l, sent w = concat (burst_of "bridge.local" "80" <$> l)
      ∧ length (sent w) = (3 * length l)%nat.
Proof.
  refine (sends_whole_bursts "bridge.local" "80"
            [Datagram success (Scenario.query "ssdp:all" "0") Scenario.alice 7
               (Scenario.bridge "uuid:ABC-123");
             Idle 1] _ _).
  vm_compute. reflexivity.
Defined.

(** ** How a run can end *)

Lemma dispatched_fields w :
  _uuid (dispatched w) = _uuid w ∧ receiving (dispatched w) = receiving w
  ∧ now (dispatched w) = now w ∧ fetches (dispatched w) = fetches w
  ∧ _trefresh (dispatched w) = _trefresh w
  ∧ _tresponse (dispatched w) = _tresponse w.
Proof. by destruct w. Qed.

Lemma has_work_receiving w : receiving w = true → has_work w = true.
Proof. intros H. unfold has_work. by rewrite H. Qed.

Lemma update_receiving up w : receiving (world_of (update up w)) = receiving w.
Proof.
  destruct (_refresh w) eqn:Hflag.
  - destruct (update_fetches up w Hflag) as [identifier ->]. by destruct w.
  - by rewrite update_skips.
Qed.

(** A fetch that throws has run into a fault other than a rejected
    status line. *)
Lemma update_thrown_fault up w e w1 :
  update up w = thrown e w1 → ∃ f, f ≠ status_rejected ∧ suffers up f.
Proof.
  intros Hup. destruct (_refresh w) eqn:Hflag.
  - destruct (update_outcomes up w Hflag)
      as [[_ H]|[(f & e' & Hne & Hf & _)|(udn & _ & H)]].
    + by rewrite H in Hup.
    + by exists f.
    + by rewrite H in Hup.
  - by rewrite update_skips in Hup.
Qed.

(** A turn that starts with the receive outstanding and does not see the
    receive fail ends with the receive outstanding, or in a throw. *)
Lemma step_listening w ev :
  receiving w = true → ¬ failed_receive ev →
  (∃ w', step w ev = Running w' ∧ receiving w' = true)
  ∨ (∃ w', step w ev = Exited EXIT_FAILURE w').
Proof.
  intros Hrec Hev. unfold step. pose proof (handle_cases w ev) as H.
  destruct ev as [error data sender r up|ms]; simpl in Hev.
  - destruct H as [[H _]|[(_ & H & _)|[(_ & _ & ->)
      |(_ & _ & mx & _ & [(w1 & Hup & ->)|(e & w1 & Hup & ->)])]]];
      [congruence|done| | |].
    + left. exists (dispatched w).
      destruct (dispatched_fields w) as (_ & Hr & _).
      rewrite has_work_receiving by congruence. split; [done|congruence].
    + left. eexists. 
      pose proof (update_receiving up w) as Hr. rewrite Hup in Hr. simpl in Hr.
      destruct (dispatched_fields (scheduled sender (t_response RAND_MAX mx r) w1))
        as (_ & Hrd & _).
      assert (receiving (scheduled sender (t_response RAND_MAX mx r) w1) = true)
        as Hrs by (destruct w1; simpl in *; congruence).
      rewrite has_work_receiving by congruence. split; [done|congruence].
    + right. by exists w1.
  - left. rewrite H. eexists.
    destruct (dispatched_fields (fire_due (set_now (now w + Z.of_N ms) w)))
      as (_ & Hrd & _).
    destruct (fire_due_fields (set_now (now w + Z.of_N ms) w)) as (_ & Hrf & _).
    assert (receiving (set_now (now w + Z.of_N ms) w) = true) as Hrs
      by (by destruct w).
    rewrite has_work_receiving by congruence. split; [done|congruence].
Qed.

(** X7. The process ends with exit status 0 only after a receive has
    completed with an error: in a run where no receive fails, the
    listener keeps the loop alive, and the process is still running or
    has ended with [EXIT_FAILURE]. *)
Theorem quiet_exit_needs_failed_receive w evs :
  receiving w = true → Forall (λ ev, ¬ failed_receive ev) evs →
  (∃ w', run (Running w) evs = Running w' ∧ receiving w' = true)
  ∨ (∃ w', run (Running w) evs = Exited EXIT_FAILURE w').
Proof.
  intros Hrec Hevs. revert w Hrec.
  induction Hevs as [|ev evs Hev _ IH]; intros w Hrec; simpl.
  - left. by exists w.
  - destruct (step_listening w ev Hrec Hev) as [(w1 & -> & Hrec1)|[w1 ->]].
    + by apply IH.
    + right. exists w1. apply run_exited.
Qed.

Lemma quiet_exit_needs_failed_receive_witness :
  (∃ w', run (Running Scenario.daemon)
           [Datagram success "NOTIFY * HTTP/1.1" Scenario.alice 7
              Scenario.unreachable;
            Idle 1000;
            Datagram success (Scenario.query "ssdp:all" "2") Scenario.bob 7
              Scenario.unreachable] = Running w'
         ∧ receiving w' = true)
  ∨ (∃ w', run (Running Scenario.daemon)
             [Datagram success "NOTIFY * HTTP/1.1" Scenario.alice 7
                Scenario.unreachable;
              Idle 1000;
              Datagram success (Scenario.query "ssdp:all" "2") Scenario.bob 7
                Scenario.unreachable] = Exited EXIT_FAILURE w').
Proof.
  apply (quiet_exit_needs_failed_receive Scenario.daemon); [reflexivity|].
  repeat constructor; simpl; [discriminate|tauto|discriminate].
Defined.

(** A turn whose fetch cannot throw does not end the process with
    [EXIT_FAILURE]. *)
Lemma step_without_fault w ev :
  ¬ may_throw ev →
  (∃ w', step w ev = Running w') ∨ (∃ w', step w ev = Exited EXIT_SUCCESS w').
Proof.
  intros Hev. unfold step. pose proof (handle_cases w ev) as H.
  destruct ev as [error data sender r up|ms]; simpl in Hev.
  - destruct H as [[_ ->]|[(_ & _ & ->)|[(_ & _ & ->)
      |(_ & _ & mx & _ & [(w1 & Hup & ->)|(e & w1 & Hup & ->)])]]];
      try (destruct (has_work _); eauto).
    destruct Hev. by eapply update_thrown_fault.
  - rewrite H. destruct (has_work _); eauto.
Qed.

(** X8. Once the loop runs, and as long as every [send_to] succeeds,
    the process ends with [EXIT_FAILURE] only through a fetch: in a run
    where no datagram comes with an exchange that suffers a connection
    failure, a premature end of the stream or a malformed body,
    whatever else happens, the process is still running or has ended
    with status 0.  No receive error, no malformed datagram, no
    unreadable MX, no rejected status line and no expiring timer makes
    the daemon fail. *)
Theorem failure_exit_needs_fetch_fault w evs :
  Forall (λ ev, ¬ may_throw ev) evs →
  (∃ w', run (Running w) evs = Running w')
  ∨ (∃ w', run (Running w) evs = Exited EXIT_SUCCESS w').
Proof.
  intros Hevs. revert w.
  induction Hevs as [|ev evs Hev _ IH]; intros w; simpl.
  - left. by exists w.
  - destruct (step_without_fault w ev Hev) as [[w1 ->]|[w1 ->]].
    + apply IH.
    + right. exists w1. apply run_exited.
Qed.

Lemma failure_exit_needs_fetch_fault_witness :
  (∃ w', run (Running Scenario.daemon)
           [Datagram success (Scenario.query "ssdp:all" "2") Scenario.alice 7
              Scenario.not_found;
            Datagram (other_error 4) "MX: x" Scenario.bob 7
              Scenario.not_found] = Running w')
  ∨ (∃ w', run (Running Scenario.daemon)
             [Datagram success (Scenario.query "ssdp:all" "2") Scenario.alice 7
                Scenario.not_found;
              Datagram (other_error 4) "MX: x" Scenario.bob 7
                Scenario.not_found] = Exited EXIT_SUCCESS w').
Proof.
  apply (failure_exit_needs_fetch_fault Scenario.daemon).
  constructor; [|constructor; [|constructor]];
    intros (f & Hne & Hf); destruct f; try done;
    vm_compute in Hf; intuition congruence.
Defined.

(** ** Where the identifier comes from *)

Lemma update_identifier up w :
  _uuid (world_of (update up w)) = _uuid w
  ∨ delivers up ("uuid:" +:+ _uuid (world_of (update up w))).
Proof.
  destruct (_refresh w) eqn:Hflag; [|left; by rewrite update_skips].
  destruct (update_outcomes up w Hflag)
    as [[_ ->]|[(f & e & _ & _ & ->)|(udn & Hd & ->)]];
    [left; by destruct w..|].
  destruct (starts_with "uuid:" udn) eqn:Hs; [|left; by destruct w].
  right. apply starts_with_split in Hs.
  replace (_uuid (world_of (returned () (set_uuid (drop_str 5 udn) (fetching up w)))))
    with (drop_str 5 udn) by (by destruct w).
  change (String.length "uuid:") with 5%nat in Hs. by rewrite <- Hs.
Qed.

Lemma step_identifier w ev w' :
  world_at (step w ev) = Some w' →
  _uuid w' = _uuid w
  ∨ ∃ error data sender r up,
      ev = Datagram error data sender r up
      ∧ delivers up ("uuid:" +:+ _uuid w').
Proof.
  unfold step. pose proof (handle_cases w ev) as H.
  destruct ev as [error data sender r up|ms].
  - destruct H as [[_ ->]|[(_ & _ & ->)|[(_ & _ & ->)
      |(_ & _ & mx & _ & [(w1 & Hup & ->)|(e & w1 & Hup & ->)])]]].
    + destruct (has_work w); intros [= <-]; by left.
    + destruct (has_work _); intros [= <-]; left; by destruct w.
    + destruct (has_work _); intros [= <-]; left; by destruct w.
    + pose proof (update_identifier up w) as Hid. rewrite Hup in Hid.
      simpl in Hid.
      assert (_uuid (dispatched (scheduled sender (t_response RAND_MAX mx r) w1))
              = _uuid w1) as Hw1 by (by destruct w1).
      destruct (has_work _); intros [= <-]; rewrite Hw1;
        (destruct Hid as [Hid|Hid]; [by left|right; by eexists _, _, _, _, _]).
    + pose proof (update_identifier up w) as Hid. rewrite Hup in Hid.
      simpl in Hid. intros [= <-].
      destruct Hid as [Hid|Hid]; [by left|right; by eexists _, _, _, _, _].
  - rewrite H.
    destruct (dispatched_fields (fire_due (set_now (now w + Z.of_N ms) w)))
      as (Hd & _).
    destruct (fire_due_fields (set_now (now w + Z.of_N ms) w)) as (Hf & _).
    destruct (has_work _); intros [= <-]; left; rewrite Hd, Hf; by destruct w.
Qed.

(** X9. The identifier the daemon holds at any point of a run is the
    one it had at the start, or the text behind [uuid:] in a UDN that a
    bridge answer of that run delivered on a complete, well-formed
    exchange.  Nothing else writes it: no datagram content, no failed
    or rejected fetch, no UDN without the prefix. *)
Theorem identifier_provenance w evs w' :
  world_at (run (Running w) evs) = Some w' →
  _uuid w' = _uuid w
  ∨ ∃ error data sender r up,
      Datagram error data sender r up ∈ evs
      ∧ delivers up ("uuid:" +:+ _uuid w').
Proof.
  revert w. induction evs as [|ev evs IH]; intros w; simpl.
  - intros [= <-]. by left.
  - destruct (step_runs_or_exits w ev) as [[w1 H1]|(code & w1 & H1)];
      pose proof (step_identifier w ev w1) as Hstep;
      rewrite H1 in *; specialize (Hstep eq_refl).
    + intros Hrun. destruct (IH w1 Hrun) as [Heq|(e & d & sd & r & up & Hin & Hd)].
      * rewrite Heq.
        destruct Hstep as [Hs|(e & d & sd & r & up & -> & Hd)]; [by left|].
        right. exists e, d, sd, r, up. split; [constructor|done].
      * right. exists e, d, sd, r, up. split; [by constructor|done].
    + rewrite run_exited. intros [= <-].
      destruct Hstep as [Hs|(e & d & sd & r & up & -> & Hd)]; [by left|].
      right. exists e, d, sd, r, up. split; [constructor|done].
Qed.

Lemma identifier_provenance_witness :
  let evs := [Datagram success (Scenario.query "ssdp:all" "2") Scenario.alice 7
                (Scenario.bridge "uuid:ABC-123");
              Idle 10] in
  let w' := default Scenario.daemon (world_at (run (Running Scenario.daemon) evs)) in
  _uuid w' = _uuid Scenario.daemon
  ∨ ∃ error data sender r up,
      Datagram error data sender r up ∈ evs
      ∧ delivers up ("uuid:" +:+ _uuid w').
Proof.
  refine (identifier_provenance Scenario.daemon
            [Datagram success (Scenario.query "ssdp:all" "2") Scenario.alice 7
               (Scenario.bridge "uuid:ABC-123");
             Idle 10] _ _).
  vm_compute. reflexivity.
Defined.

(** ** From the query to the burst *)




